(** * LisanAI: a shallow embedding of the client-side media logic

    The development follows the four source modules of the application:
    the localization provider ([LanguageContext]), the video-frame sampler
    and its caller ([VideoAnalysis]), the speech-synthesis flow
    ([TextToSpeech]) and the live-conversation message handler
    ([ConversationalAI]).

    Conventions of the embedding.
    - A JavaScript string is the list of its UTF-16 code units.
    - A JavaScript number that measures time (seconds on a media or audio
      clock) is an exact rational.  The properties proved about times only use
      order, [max] and addition.
    - React state and refs are record fields; a handler is a function from
      the state (and what the environment answers) to the new state and the
      list of effects it performed on the outside world.
    - The translation table and the helpers of [utils] are not among the
      source files embedded here; the table and the decoding helpers are
      parameters, and the waveform encoder of the download is left out. *)

From Stdlib Require Import QArith Qminmax Qround Lqa.
From stdpp Require Import gmap strings list.

Local Open Scope Z_scope.

(* ===================================================================== *)
(** * JavaScript values used by the handlers *)
(* ===================================================================== *)

Module JS.

(** A string is its sequence of UTF-16 code units. *)
Definition jsstring : Type := list N.

(** Code units of an ASCII literal, to write concrete strings. *)
Fixpoint js (s : string) : jsstring :=
  match s with
  | EmptyString => []
  | String c s' => Ascii.N_of_ascii c :: js s'
  end.

(** ECMAScript [WhiteSpace] and [LineTerminator] code points, the ones
    [String.prototype.trim] strips. All of them are in the basic plane. *)
Definition isWhiteSpace (c : N) : bool :=
  (existsb (N.eqb c)
     [ 0x0009; 0x000A; 0x000B; 0x000C; 0x000D; 0x0020; 0x00A0; 0x1680;
       0x2028; 0x2029; 0x202F; 0x205F; 0x3000; 0xFEFF ]%N)
  || ((0x2000 <=? c)%N && (c <=? 0x200A)%N).

Fixpoint trimStart (s : jsstring) : jsstring :=
  match s with
  | [] => []
  | c :: s' => if isWhiteSpace c then trimStart s' else s
  end.

Definition trimEnd (s : jsstring) : jsstring := rev (trimStart (rev s)).

(** [s.trim()] *)
Definition trim (s : jsstring) : jsstring := trimEnd (trimStart s).

(** Truthiness of a string: only the empty string is falsy. *)
Definition truthy (s : jsstring) : bool :=
  match s with [] => false | _ :: _ => true end.

(** Truthiness of a possibly undefined (or null) string. *)
Definition truthy_opt (o : option jsstring) : bool :=
  match o with Some s => truthy s | None => false end.

(** An [Error] object, reduced to its message. [new Error(undefined)] has
    the empty message. *)
Record Error := mkError { message : jsstring }.

Definition newError (msg : option jsstring) : Error :=
  mkError (default [] msg).

(** [e.message || fallback] *)
Definition messageOr (e : Error) (fallback : option jsstring) : option jsstring :=
  if truthy (message e) then Some (message e) else fallback.

(** The string is empty or made of white space only. *)
Definition blank (s : jsstring) : Prop := Forall (λ c, isWhiteSpace c = true) s.

End JS.

Import JS.

(* ===================================================================== *)
(** * LanguageContext.tsx *)
(* ===================================================================== *)

Module LanguageContext.

Inductive Language := En | Ar.

Inductive Direction := Ltr | Rtl.

(** Arguments passed to a parameterized message ([...args: any[]]); the
    callers pass a frame count or an error message. *)
Inductive Arg :=
| ArgNumber (n : Z)
| ArgString (s : jsstring).

(** An entry of the translation table is a string or a function of the
    arguments. *)
Inductive Entry :=
| EString (s : jsstring)
| EFunction (f : list Arg → jsstring).

(** [translations[language]] is an object used as a map from message keys
    to entries; a missing key reads as [undefined] ([None]). *)
Definition Table : Type := Language → gmap string Entry.

(** Truthiness of [translations[language][key]]: [undefined] and the empty
    string are falsy, every function and non-empty string is truthy. *)
Definition entry_truthy (o : option Entry) : bool :=
  match o with
  | None => false
  | Some (EString s) => truthy s
  | Some (EFunction _) => true
  end.

(** [a || b] on table entries. *)
Definition entry_or (a b : option Entry) : option Entry :=
  if entry_truthy a then a else b.

(** What [t] returns for a selected entry: the function applied to the
    arguments, or the entry itself read as a string. *)
Definition render (stringOrFn : option Entry) (args : list Arg) : option jsstring :=
  match stringOrFn with
  | Some (EFunction f) => Some (f args)
  | Some (EString s) => Some s
  | None => None
  end.

Section Provider.
Variable translations : Table.
Variable language : Language.

Definition t (key : string) (args : list Arg) : option jsstring :=
  let stringOrFn := entry_or (translations language !! key) (translations En !! key) in
  render stringOrFn args.

Definition dir : Direction :=
  match language with Ar => Rtl | En => Ltr end.
End Provider.

End LanguageContext.


(* ===================================================================== *)
(** * components/VideoAnalysis.tsx *)
(* ===================================================================== *)

Module VideoAnalysis.
Import LanguageContext.

(** The hidden [<video>] element as the sampler uses it: the duration of the
    media, and the position [currentTime] reports once a seek to a requested
    time has completed and [seeked] has fired. The duration held here is
    finite. Of an unbounded duration the listener only sees that the
    position stays below it, which is said of [seekTo] where it matters. *)
Record VideoElement := mkVideo {
  duration : Q;
  seekTo : Q → Q
}.

(** The seeking algorithm of a media element clamps the requested position
    to the range of the media. *)
Definition htmlVideo (d : Q) : VideoElement :=
  mkVideo d (λ requested, Qmax 0 (Qmin requested d)).

(** An element that would report the requested position unchanged. *)
Definition unclampedVideo (d : Q) : VideoElement :=
  mkVideo d (λ requested, requested).

(** [a < b] on clock values. *)
Definition Qlt_bool (a b : Q) : bool := negb (Qle_bool b a).

Section Sampler.
(** An encoded frame ([blobToBase64] of the JPEG blob); the encoder itself is
    a helper of [utils] and stays abstract. *)
Variable Frame : Type.

(** The offscreen canvas: whether [getContext('2d')] answers a context, and
    what [toBlob] delivers for the picture drawn at a position ([None] for a
    null blob). *)
Record Canvas := mkCanvas {
  context2d : bool;
  toBlob : Q → option Frame
}.

(** One run of the [seeked] listener per unit of fuel. [currentTime] is the
    position the element reports when the listener runs. [None]: the promise
    is still pending when the fuel is spent. *)
Fixpoint onSeeked (fuel : nat) (video : VideoElement) (canvas : Canvas)
    (currentTime : Q) (frames : list Frame) : option (list Frame) :=
  match fuel with
  | O => None
  | S fuel' =>
      if negb (context2d canvas) then Some []
      else
        let frames' :=
          match toBlob canvas currentTime with
          | Some base64 => frames ++ [base64]
          | None => frames
          end in
        if Qlt_bool currentTime (duration video)
        then onSeeked fuel' video canvas (seekTo video (currentTime + 1)) frames'
        else Some frames'
  end.

(** [video.currentTime = 0], then the listener takes over. *)
Definition extractFrames (fuel : nat) (video : VideoElement) (canvas : Canvas)
    : option (list Frame) :=
  onSeeked fuel video canvas (seekTo video 0) [].

(** Component state ([useState] cells and the two element refs). *)
Record State := mkState {
  videoFile : bool;
  videoUrl : option jsstring;
  prompt : jsstring;
  analysis : jsstring;
  isLoading : bool;
  error : option jsstring;
  progress : option jsstring;
  videoRef : bool;
  canvasRef : bool
}.

Definition setAnalysis (v : jsstring) (st : State) : State :=
  mkState (videoFile st) (videoUrl st) (prompt st) v (isLoading st)
          (error st) (progress st) (videoRef st) (canvasRef st).

Definition setIsLoading (v : bool) (st : State) : State :=
  mkState (videoFile st) (videoUrl st) (prompt st) (analysis st) v
          (error st) (progress st) (videoRef st) (canvasRef st).

Definition setError (v : option jsstring) (st : State) : State :=
  mkState (videoFile st) (videoUrl st) (prompt st) (analysis st) (isLoading st)
          v (progress st) (videoRef st) (canvasRef st).

Definition setProgress (v : option jsstring) (st : State) : State :=
  mkState (videoFile st) (videoUrl st) (prompt st) (analysis st) (isLoading st)
          (error st) v (videoRef st) (canvasRef st).

(** What the handler does to the outside world. *)
Inductive Effect :=
| GenerateContent (model : string) (text : jsstring) (images : list Frame)
| ConsoleError (e : Error).

Definition isRemoteCall (e : Effect) : bool :=
  match e with GenerateContent _ _ _ => true | ConsoleError _ => false end.

Variable translations : Table.
Variable language : Language.
Local Abbreviation t := (t translations language).

(** The remote model: for a prompt and the frames, either the call throws or
    it answers a text. *)
Variable generateContent : jsstring → list Frame → Error + jsstring.

(** The [try] block after the frames have arrived: the state and effects so
    far, and the exception if one was thrown. *)
Definition tryAnalyze (st : State) (frames : list Frame)
    : State * list Effect * option Error :=
  if (length frames =? 0)%nat then
    (st, [], Some (newError (t "video_error_no_frames" [])))
  else
    let st1 := setProgress
                 (t "video_progress_sending" [ArgNumber (Z.of_nat (length frames))]) st in
    let call := GenerateContent "gemini-2.5-pro" (prompt st) frames in
    match generateContent (prompt st) frames with
    | inl e => (st1, [call], Some e)
    | inr text => (setAnalysis text st1, [call], None)
    end.

(** The [catch] and [finally] blocks. *)
Definition catchFinally (r : State * list Effect * option Error) : State * list Effect :=
  let '(st, effects, thrown) := r in
  let '(st1, effects1) :=
    match thrown with
    | Some e => (setError (messageOr e (t "video_error_unknown" [])) st,
                 effects ++ [ConsoleError e])
    | None => (st, effects)
    end in
  (setProgress (Some []) (setIsLoading false st1), effects1).

(** The [onloadeddata] callback. While the extraction promise is pending
    nothing after the [await] runs. *)
Definition onloadeddata (fuel : nat) (video : VideoElement) (canvas : Canvas)
    (st : State) : State * list Effect :=
  let st1 := setProgress (t "video_progress_extracting" []) st in
  match extractFrames fuel video canvas with
  | None => (st1, [])
  | Some frames => catchFinally (tryAnalyze st1 frames)
  end.

(** The validation guard of [handleAnalyze]. *)
Definition invalid (st : State) : bool :=
  negb (videoFile st) || negb (truthy (trim (prompt st))) || negb (videoRef st)
  || negb (canvasRef st) || negb (truthy_opt (videoUrl st)).

(** [handleAnalyze], followed by its [onloadeddata] callback when the element
    fires [loadeddata]. *)
Definition handleAnalyze (loadeddata : bool) (fuel : nat) (video : VideoElement)
    (canvas : Canvas) (st : State) : State * list Effect :=
  if invalid st then (setError (t "video_error_no_file_prompt" []) st, [])
  else
    let st1 := setProgress (t "video_progress_preparing" [])
                 (setAnalysis [] (setError None (setIsLoading true st))) in
    if loadeddata then onloadeddata fuel video canvas st1 else (st1, []).

End Sampler.

End VideoAnalysis.


(* ===================================================================== *)
(** * Audio buffers *)
(* ===================================================================== *)

Module Utils.

(** A decoded audio buffer of the Web Audio API: one channel of samples and
    the number of sample frames per second. Only the number of sample frames
    enters what follows; what a sample holds is never looked at, and it is
    kept as an integer code. *)
Record AudioBuffer := mkAudioBuffer {
  channelData : list Z;
  sampleRate : positive
}.

(** [buffer.duration], in seconds: the number of sample frames over the
    sample rate. *)
Definition duration (buffer : AudioBuffer) : Q :=
  Z.of_nat (length (channelData buffer)) # sampleRate buffer.

End Utils.


(* ===================================================================== *)
(** * components/TextToSpeech.tsx *)
(* ===================================================================== *)

Module TextToSpeech.
Import LanguageContext Utils.

(** Component state: the [useState] cells and the three refs. The audio
    context ref only matters through being set and open. *)
Record State := mkState {
  text : jsstring;
  selectedVoice : string;
  isLoading : bool;
  isPlaying : bool;
  error : option jsstring;
  audioContextOpen : bool;
  audioSource : bool;
  audioBuffer : option AudioBuffer
}.

Definition setIsLoading (v : bool) (st : State) : State :=
  mkState (text st) (selectedVoice st) v (isPlaying st) (error st)
          (audioContextOpen st) (audioSource st) (audioBuffer st).

Definition setIsPlaying (v : bool) (st : State) : State :=
  mkState (text st) (selectedVoice st) (isLoading st) v (error st)
          (audioContextOpen st) (audioSource st) (audioBuffer st).

Definition setError (v : option jsstring) (st : State) : State :=
  mkState (text st) (selectedVoice st) (isLoading st) (isPlaying st) v
          (audioContextOpen st) (audioSource st) (audioBuffer st).

Definition setAudioContextOpen (v : bool) (st : State) : State :=
  mkState (text st) (selectedVoice st) (isLoading st) (isPlaying st) (error st)
          v (audioSource st) (audioBuffer st).

Definition setAudioSource (v : bool) (st : State) : State :=
  mkState (text st) (selectedVoice st) (isLoading st) (isPlaying st) (error st)
          (audioContextOpen st) v (audioBuffer st).

Definition setAudioBuffer (v : option AudioBuffer) (st : State) : State :=
  mkState (text st) (selectedVoice st) (isLoading st) (isPlaying st) (error st)
          (audioContextOpen st) (audioSource st) v.

Inductive Effect :=
| SourceStop
| GenerateContent (model : string) (text : jsstring) (voiceName : string)
| NewAudioContext (rate : Z)
| ConsoleError (e : Error).

Definition isRemoteCall (e : Effect) : bool :=
  match e with GenerateContent _ _ _ => true | _ => false end.

Section Component.
Variable translations : Table.
Variable language : Language.
Local Abbreviation t := (t translations language).

(** The remote model: the call throws, or answers with the inline audio
    payload of the first part, if there is one. *)
Variable generateContent : jsstring → string → Error + option jsstring.

(** [decodeAudioData(decode(base64), ctx, 24000, 1)], helpers of [utils]:
    the buffer, or the exception the decoding throws. *)
Variable decodeAudioData : jsstring → Error + AudioBuffer.

Definition stopPlayback (st : State) : State * list Effect :=
  let '(st1, effects) :=
    if audioSource st then (setAudioSource false st, [SourceStop]) else (st, []) in
  (setIsPlaying false st1, effects).

(** The [try] block: state and effects so far, and the exception if one was
    thrown. *)
Definition trySpeech (st : State) : State * list Effect * option Error :=
  let call := GenerateContent "gemini-2.5-flash-preview-tts" (text st) (selectedVoice st) in
  match generateContent (text st) (selectedVoice st) with
  | inl e => (st, [call], Some e)
  | inr base64Audio =>
      if truthy_opt base64Audio then
        let '(st1, effects) :=
          if audioContextOpen st then (st, [call])
          else (setAudioContextOpen true st, [call; NewAudioContext 24000]) in
        match decodeAudioData (default [] base64Audio) with
        | inl e => (st1, effects, Some e)
        | inr buffer => (setAudioBuffer (Some buffer) st1, effects, None)
        end
      else (st, [call], Some (newError (t "tts_error_no_audio" [])))
  end.

(** The [catch] and [finally] blocks. *)
Definition catchFinally (r : State * list Effect * option Error) : State * list Effect :=
  let '(st, effects, thrown) := r in
  let '(st1, effects1) :=
    match thrown with
    | Some e => (setError (messageOr e (t "tts_error_unknown" [])) st,
                 effects ++ [ConsoleError e])
    | None => (st, effects)
    end in
  (setIsLoading false st1, effects1).

Definition handleGenerateSpeech (st : State) : State * list Effect :=
  if negb (truthy (trim (text st))) then
    (setError (t "tts_error_empty_text" []) st, [])
  else
    let '(st1, stopped) := stopPlayback st in
    let st2 := setAudioBuffer None (setError None (setIsLoading true st1)) in
    let '(st3, effects) := catchFinally (trySpeech st2) in
    (st3, stopped ++ effects).

End Component.

End TextToSpeech.


(* ===================================================================== *)
(** * components/ConversationalAI.tsx *)
(* ===================================================================== *)

Module ConversationalAI.
Import Utils.

Inductive Author := User | Model.

Global Instance Author_eq_dec : EqDecision Author.
Proof. solve_decision. Defined.

Record Transcription := mkTranscription {
  author : Author;
  text : jsstring
}.

(** The fields of a [LiveServerMessage] the handler reads. A transcription
    without text reads as [None]; [inlineData] is the base64 payload of the
    first part of the model turn. *)
Record LiveServerMessage := mkMessage {
  inputTranscription : option jsstring;
  outputTranscription : option jsstring;
  turnComplete : bool;
  inlineData : option jsstring;
  interrupted : bool
}.

(** The refs and state cells the handler touches. A buffer source node is
    identified by its creation rank; [created] counts the nodes made so far,
    so every [createBufferSource] yields a new identity. *)
Record State := mkState {
  transcriptions : list Transcription;
  transcriptionsRef : list Transcription;
  lastAuthorRef : option Author;
  outputAudioContextRef : bool;
  nextStartTimeRef : Q;
  audioSourcesRef : gset nat;
  created : nat
}.

Definition setTranscriptions (v : list Transcription) (st : State) : State :=
  mkState v (transcriptionsRef st) (lastAuthorRef st) (outputAudioContextRef st)
          (nextStartTimeRef st) (audioSourcesRef st) (created st).

Definition setTranscriptionsRef (v : list Transcription) (st : State) : State :=
  mkState (transcriptions st) v (lastAuthorRef st) (outputAudioContextRef st)
          (nextStartTimeRef st) (audioSourcesRef st) (created st).

Definition setLastAuthorRef (v : option Author) (st : State) : State :=
  mkState (transcriptions st) (transcriptionsRef st) v (outputAudioContextRef st)
          (nextStartTimeRef st) (audioSourcesRef st) (created st).

Definition setOutputAudioContextRef (v : bool) (st : State) : State :=
  mkState (transcriptions st) (transcriptionsRef st) (lastAuthorRef st) v
          (nextStartTimeRef st) (audioSourcesRef st) (created st).

Definition setNextStartTimeRef (v : Q) (st : State) : State :=
  mkState (transcriptions st) (transcriptionsRef st) (lastAuthorRef st)
          (outputAudioContextRef st) v (audioSourcesRef st) (created st).

Definition setAudioSourcesRef (v : gset nat) (st : State) : State :=
  mkState (transcriptions st) (transcriptionsRef st) (lastAuthorRef st)
          (outputAudioContextRef st) (nextStartTimeRef st) v (created st).

Definition setCreated (v : nat) (st : State) : State :=
  mkState (transcriptions st) (transcriptionsRef st) (lastAuthorRef st)
          (outputAudioContextRef st) (nextStartTimeRef st) (audioSourcesRef st) v.

(** The refs as the component is mounted. *)
Definition mounted : State := mkState [] [] None false 0 ∅ 0.

(** Calls on buffer source nodes. *)
Inductive Effect :=
| SourceStart (source : nat) (when : Q) (buffer : AudioBuffer)
| SourceStop (source : nat).

(** The successful path of [startConversation], as far as these refs go. *)
Definition startConversation (st : State) : State :=
  setNextStartTimeRef 0
    (setOutputAudioContextRef true
       (setLastAuthorRef None (setTranscriptionsRef [] (setTranscriptions [] st)))).

(** [ts[ts.length - 1].text += s]; reading [text] of [undefined] throws when
    the array is empty. *)
Definition appendToLast (s : jsstring) (ts : list Transcription)
    : option (list Transcription) :=
  match last ts with
  | None => None
  | Some u =>
      Some (<[(length ts - 1)%nat := mkTranscription (author u) (text u ++ s)]> ts)
  end.

Definition typeError : Error := mkError (js "TypeError").

(** One of the two transcription blocks of [onmessage], for the speaker
    [who]: the new state and whether the transcript was updated, or the
    exception. *)
Definition onTranscription (who : Author) (fragment : option jsstring) (st : State)
    : Error + State * bool :=
  if truthy_opt fragment then
    let st1 :=
      if decide (lastAuthorRef st = Some who) then st
      else setLastAuthorRef (Some who)
             (setTranscriptionsRef (transcriptionsRef st ++ [mkTranscription who []]) st) in
    match appendToLast (default [] fragment) (transcriptionsRef st1) with
    | None => inl typeError
    | Some ts => inr (setTranscriptionsRef ts st1, true)
    end
  else inr (st, false).

Section Session.
(** [decodeAudioData(decode(base64), ctx, 24000, 1)], helpers of [utils]:
    the buffer, or the exception the decoding throws. *)
Variable decodeAudioData : jsstring → Error + AudioBuffer.

(** The block that schedules a decoded chunk on the output clock, read at
    [currentTime]. *)
Definition schedule (currentTime : Q) (audioBuffer : AudioBuffer) (st : State)
    : State * list Effect :=
  let source := created st in
  let startTime := Qmax currentTime (nextStartTimeRef st) in
  (setAudioSourcesRef ({[source]} ∪ audioSourcesRef st)
     (setNextStartTimeRef (startTime + duration audioBuffer)
        (setCreated (S source) st)),
   [SourceStart source startTime audioBuffer]).

(** The [interrupted] block. Every node of the set has been started, so
    [stop] does not throw on it. *)
Definition interrupt (st : State) : State * list Effect :=
  (setNextStartTimeRef 0 (setAudioSourcesRef ∅ st),
   map SourceStop (elements (audioSourcesRef st))).

(** [onmessage]: the state and the effects when the handler ends, and the
    exception if it ended by one. [currentTime] is what the output context's
    clock reads when the chunk is scheduled. The handler is taken as one
    run: the [await] of the decoding is assumed to resume before the next
    event is handled, so that chunks are scheduled in the order of their
    messages. *)
Definition onmessage (currentTime : Q) (message : LiveServerMessage) (st : State)
    : State * list Effect * option Error :=
  match onTranscription User (inputTranscription message) st with
  | inl e => (st, [], Some e)
  | inr (st1, updatedIn) =>
  match onTranscription Model (outputTranscription message) st1 with
  | inl e => (st1, [], Some e)
  | inr (st2, updatedOut) =>
      let st3 :=
        if updatedIn || updatedOut then setTranscriptions (transcriptionsRef st2) st2
        else st2 in
      let st4 := if turnComplete message then setLastAuthorRef None st3 else st3 in
      let scheduled : Error + State * list Effect :=
        if truthy_opt (inlineData message) && outputAudioContextRef st4 then
          match decodeAudioData (default [] (inlineData message)) with
          | inl e => inl e
          | inr audioBuffer => inr (schedule currentTime audioBuffer st4)
          end
        else inr (st4, []) in
      match scheduled with
      | inl e => (st4, [], Some e)
      | inr (st5, started) =>
          if interrupted message then
            let '(st6, stopped) := interrupt st5 in (st6, started ++ stopped, None)
          else (st5, started, None)
      end
  end
  end.

(** [source.onended]: the node leaves the active set. *)
Definition onended (source : nat) (st : State) : State :=
  setAudioSourcesRef (audioSourcesRef st ∖ {[source]}) st.

(** The end of [stopConversation]: every outstanding node is stopped and the
    set is cleared. The cursor is left as it is. *)
Definition stopConversation (st : State) : State * list Effect :=
  (setAudioSourcesRef ∅ st, map SourceStop (elements (audioSourcesRef st))).

(** What can happen to the sequencer. *)
Inductive Event :=
| Message (currentTime : Q) (message : LiveServerMessage)
| Ended (source : nat)
| Stop.

Definition step (st : State) (ev : Event) : State * list Effect :=
  match ev with
  | Message currentTime message => fst (onmessage currentTime message st)
  | Ended source => (onended source st, [])
  | Stop => stopConversation st
  end.

(** The states and the effects of a run, event after event. *)
Fixpoint run (st : State) (evs : list Event) : State * list Effect :=
  match evs with
  | [] => (st, [])
  | ev :: evs' =>
      let '(st1, effects) := step st ev in
      let '(st2, effects') := run st1 evs' in
      (st2, effects ++ effects')
  end.

End Session.

End ConversationalAI.


(* ===================================================================== *)
(** * Vocabulary of the statements *)
(* ===================================================================== *)

(** What the properties below are stated with: the messages that carry one
    thing only, the readings of a trace, the rule of the specification, and
    the bookkeeping of the active set. None of it is part of the
    application. *)

Module Vocabulary.
Import LanguageContext Utils ConversationalAI.

Local Open Scope Q_scope.

(** A message that only carries a fragment of recognized user speech, of
    model speech, or the end of a turn. *)
Definition userFragment (s : jsstring) : LiveServerMessage :=
  mkMessage (Some s) None false None false.

Definition modelFragment (s : jsstring) : LiveServerMessage :=
  mkMessage None (Some s) false None false.

Definition turnCompleted : LiveServerMessage :=
  mkMessage None None true None false.

(** The state in which a session starts. *)
Definition started : State := startConversation mounted.

(** A message that only carries an audio chunk, and the interrupt signal. *)
Definition audioChunk (payload : jsstring) : LiveServerMessage :=
  mkMessage None None false (Some payload) false.

Definition interruptSignal : LiveServerMessage :=
  mkMessage None None false None true.

(** The [start] calls of a trace: start time and buffer, in order. *)
Definition starts (effects : list Effect) : list (Q * AudioBuffer) :=
  omap (λ e, match e with
             | SourceStart _ when buffer => Some (when, buffer)
             | SourceStop _ => None
             end) effects.

(** The scheduling rule in the words of the specification: a chunk starts at
    the later of the clock and the cursor, and the cursor moves to its
    end. *)
Fixpoint ruleSchedule (nextStartTime : Q) (chunks : list (Q * AudioBuffer))
    : list (Q * AudioBuffer) :=
  match chunks with
  | [] => []
  | (currentClockTime, chunk) :: rest =>
      let startTime := Qmax currentClockTime nextStartTime in
      (startTime, chunk) :: ruleSchedule (startTime + duration chunk) rest
  end.

(** Start times do not decrease and no chunk ends after the next starts. *)
Inductive InOrder : list (Q * AudioBuffer) → Prop :=
| InOrder_nil : InOrder []
| InOrder_one start chunk : InOrder [(start, chunk)]
| InOrder_cons start chunk start' chunk' rest :
    start <= start' →
    start + duration chunk <= start' →
    InOrder ((start', chunk') :: rest) →
    InOrder ((start, chunk) :: (start', chunk') :: rest).

(** The arrivals of a run of chunks: clock reading and payload, and the
    buffer each payload decodes to. *)
Definition arrives (chunk : Q * jsstring * AudioBuffer) : Event :=
  Message chunk.1.1 (audioChunk chunk.1.2).

Definition decodes (decodeAudioData : jsstring → Error + AudioBuffer)
    (chunk : Q * jsstring * AudioBuffer) : Prop :=
  chunk.1.2 ≠ [] ∧ decodeAudioData chunk.1.2 = inr chunk.2.

(** The three sequencer cells of a state. *)
Definition sequencer (st : State) : Q * gset nat * nat :=
  (nextStartTimeRef st, audioSourcesRef st, created st).

(** An event that is not an interrupt. *)
Definition quiet (ev : Event) : Prop :=
  match ev with
  | Message _ message => interrupted message = false
  | Ended _ | Stop => True
  end.

(** The tracked speaker, when there is one, is the author of the last
    utterance: the append never meets an empty transcript. *)
Definition tracked (st : State) : Prop :=
  ∀ who, lastAuthorRef st = Some who →
    ∃ front u, transcriptionsRef st = front ++ [u] ∧ author u = who.

(** Every source is created inside the active set and identities are not
    reused: everything in the set has been created. *)
Definition allCreated (st : State) : Prop :=
  ∀ source, source ∈ audioSourcesRef st → (source < created st)%nat.

(** Why a source leaves the active set: its own [ended] listener ran, the
    [interrupted] block of a message ran, or the session was stopped. *)
Inductive Cause := Completion | Interruption | SessionStop.

(** The only way each kind of event can take a source out of the set. *)
Definition causeOf (ev : Event) : Cause :=
  match ev with
  | Message _ _ => Interruption
  | Ended _ => Completion
  | Stop => SessionStop
  end.

(** The sources a trace starts, in order. *)
Definition startedIn (effects : list Effect) : list nat :=
  omap (λ e, match e with
             | SourceStart source _ _ => Some source
             | SourceStop _ => None
             end) effects.

(** What a step takes out of the active set: the sources that were in it
    before the step, or that the step started, and that are not in it after
    the step. Each is logged with the kind of the event. *)
Definition removedAt (decodeAudioData : jsstring → Error + AudioBuffer)
    (st : State) (ev : Event) : list (nat * Cause) :=
  let after := step decodeAudioData st ev in
  (λ source, (source, causeOf ev))
    <$> elements ((audioSourcesRef st ∪ list_to_set (startedIn after.2))
                  ∖ audioSourcesRef after.1).

(** The log of removals of a run, step after step. *)
Fixpoint removalLog (decodeAudioData : jsstring → Error + AudioBuffer)
    (st : State) (evs : list Event) : list (nat * Cause) :=
  match evs with
  | [] => []
  | ev :: evs' =>
      removedAt decodeAudioData st ev
      ++ removalLog decodeAudioData (step decodeAudioData st ev).1 evs'
  end.

(** The events that empty the set of a source: the [ended] event of that
    very source, the stop of the session, and a message flagged as
    interrupted whose handler runs to its end. *)
Definition clears (decodeAudioData : jsstring → Error + AudioBuffer)
    (st : State) (ev : Event) (source : nat) : Prop :=
  match ev with
  | Ended ended => ended = source
  | Stop => True
  | Message currentTime message =>
      interrupted message = true
      ∧ (onmessage decodeAudioData currentTime message st).2 = None
  end.


End Vocabulary.


(* ===================================================================== *)
(** * Sample data *)
(* ===================================================================== *)

Module Scenario.
Import LanguageContext Utils.

(** A small table: Arabic has its own tab label and an empty header title,
    and no entry for the error and progress messages. *)
Definition sampleTable : Table := λ language,
  match language with
  | En => {[ "tab_tts" := EString (js "Text to Speech");
             "header_title" := EString (js "Lisan AI");
             "tts_error_empty_text" := EString (js "Please enter some text.");
             "video_error_no_file_prompt" := EString (js "Choose a video and a prompt.");
             "video_error_no_frames" := EString (js "No frames extracted.");
             "video_progress_sending" := EFunction (λ args, js "Sending frames") ]}
  | Ar => {[ "tab_tts" := EString [0x635; 0x648; 0x62A]%N;
             "header_title" := EString [] ]}
  end.

Definition blankSpeech : TextToSpeech.State :=
  TextToSpeech.mkState (js "   ") "Zephyr" false false None false false None.

Definition blankPrompt : VideoAnalysis.State :=
  VideoAnalysis.mkState true (Some (js "blob:video")) [0x0009; 0x3000]%N []
    false None None true true.

(** An element that reports a duration of ten seconds and can be sought up
    to five only: the position never reaches the duration. The position
    stays below an unbounded duration in the same way. *)
Definition shortOfDuration : VideoAnalysis.VideoElement :=
  VideoAnalysis.mkVideo 10 (λ requested, Qmax 0 (Qmin requested 5)).

(** A canvas on which every picture encodes, each frame standing for the
    position it was taken at. *)
Definition everyFrame : VideoAnalysis.Canvas Q := VideoAnalysis.mkCanvas Q true Some.

(** A canvas without a 2d context. *)
Definition noContext : VideoAnalysis.Canvas Q := VideoAnalysis.mkCanvas Q false Some.

(** A canvas whose [toBlob] always delivers a null blob. *)
Definition nullBlobs : VideoAnalysis.Canvas Q := VideoAnalysis.mkCanvas Q true (λ _, None).

Definition readyToAnalyze : VideoAnalysis.State :=
  VideoAnalysis.mkState true (Some (js "blob:video")) (js "Describe the video.") [] false None
    None true true.

(** A decoder for runs without audio. *)
Definition noAudio : jsstring → Error + AudioBuffer := λ _, inl (mkError []).

(** One millisecond and half a millisecond of audio at 24 kHz. *)
Definition oneMs : AudioBuffer := mkAudioBuffer (replicate 24 7%Z) 24000.
Definition halfMs : AudioBuffer := mkAudioBuffer (replicate 12 (-7)%Z) 24000.

(** A decoder that tells the two apart by the first code unit. *)
Definition sampleDecoder : jsstring → Error + AudioBuffer := λ payload,
  match payload with
  | 65%N :: _ => inr oneMs
  | 66%N :: _ => inr halfMs
  | _ => inl (mkError (js "InvalidCharacterError"))
  end.

End Scenario.


(* ===================================================================== *)
(** * Further handlers of the components *)
(* ===================================================================== *)

Module TranscriptFile.
Import ConversationalAI.

(** [t.author === 'user' ? 'User' : 'Model'] *)
Definition authorLabel (who : Author) : jsstring :=
  match who with User => js "User" | Model => js "Model" end.

(** The template literal of one utterance: label, colon, space, text. *)
Definition formatTranscription (u : Transcription) : jsstring :=
  authorLabel (author u) ++ js ": " ++ text u.

(** [parts.join(sep)] *)
Fixpoint join (sep : jsstring) (parts : list jsstring) : jsstring :=
  match parts with
  | [] => []
  | [part] => part
  | part :: rest => part ++ sep ++ join sep rest
  end.

(** [formattedTranscript]: the utterances, a blank line between them. *)
Definition formattedTranscript (ts : list Transcription) : jsstring :=
  join [10; 10]%N (map formatTranscription ts).

(** [handleDownloadTranscript]: the text of [transcript.txt], built from the
    displayed transcript. *)
Definition handleDownloadTranscript (st : State) : jsstring :=
  formattedTranscript (transcriptions st).

End TranscriptFile.

Module DefaultText.
Import LanguageContext.

(** [value === entry] for a string and an entry of the table: only a string
    entry with the same code units is equal. *)
Definition sameAsEntry (value : jsstring) (entry : option Entry) : bool :=
  match entry with
  | Some (EString s) => bool_decide (value = s)
  | _ => false
  end.

(** The effect that the video and the speech components run when they mount
    and whenever the language changes, for the cell [value] and the message
    [key]: what the cell holds afterwards ([None] for [undefined]). *)
Definition defaultTextEffect (key : string) (translations : Table)
    (language : Language) (value : jsstring) : option jsstring :=
  let defaultEn := translations En !! key in
  let defaultAr := translations Ar !! key in
  if negb (truthy value) || sameAsEntry value defaultEn || sameAsEntry value defaultAr
  then t translations language key []
  else Some value.

(** The effect of [VideoAnalysis] on the prompt. *)
Definition promptEffect := defaultTextEffect "video_default_prompt".

(** The effect of [TextToSpeech] on the text. *)
Definition textEffect := defaultTextEffect "tts_default_text".

End DefaultText.


(* ===================================================================== *)
(** * Readings of runs *)
(* ===================================================================== *)

(** More of what properties are stated with: the transcript cells read off a
    state, the fragments of a run, and shapes of traces. None of it is part
    of the application. *)

Module Readings.
Import LanguageContext Utils ConversationalAI Vocabulary.

(** The fragments with text that a message carries, in the order in which
    the handler reads them. *)
Definition fragmentsOf (message : LiveServerMessage) : list (Author * jsstring) :=
  (if truthy_opt (inputTranscription message)
   then [(User, default [] (inputTranscription message))] else [])
  ++ (if truthy_opt (outputTranscription message)
      then [(Model, default [] (outputTranscription message))] else []).

(** The fragments of a run of events. *)
Fixpoint spoken (evs : list Event) : list (Author * jsstring) :=
  match evs with
  | [] => []
  | Message _ message :: evs' => fragmentsOf message ++ spoken evs'
  | _ :: evs' => spoken evs'
  end.

(** The transcript cells of a state: tracked speaker and utterances. *)
Definition view (st : State) : option Author * list Transcription :=
  (lastAuthorRef st, transcriptionsRef st).

(** One fragment with text, on the transcript cells alone. *)
Definition assemble (v : option Author * list Transcription)
    (fragment : Author * jsstring) : option Author * list Transcription :=
  if decide (v.1 = Some fragment.1)
  then (v.1, default v.2 (appendToLast fragment.2 v.2))
  else (Some fragment.1, v.2 ++ [mkTranscription fragment.1 fragment.2]).

(** One event, on the transcript cells alone. *)
Definition viewStep (v : option Author * list Transcription) (ev : Event)
    : option Author * list Transcription :=
  match ev with
  | Message _ message =>
      let v' := foldl assemble v (fragmentsOf message) in
      (if turnComplete message then None else v'.1, v'.2)
  | Ended _ | Stop => v
  end.

(** The tracked speaker of transcript cells is the author of the last
    utterance. *)
Definition trackedView (v : option Author * list Transcription) : Prop :=
  ∀ who, v.1 = Some who → ∃ front u, v.2 = front ++ [u] ∧ author u = who.

(** All the text of a transcript, utterance after utterance. *)
Definition fullText (ts : list Transcription) : jsstring := concat (map text ts).

(** Earlier utterances are kept as they are, and the last one keeps its
    author and its text as a prefix. *)
Definition grows (ts ts' : list Transcription) : Prop :=
  (length ts ≤ length ts')%nat
  ∧ (∀ i, (S i < length ts)%nat → ts' !! i = ts !! i)
  ∧ (∀ u, last ts = Some u →
       ∃ u', ts' !! (length ts - 1)%nat = Some u'
             ∧ author u' = author u ∧ text u `prefix_of` text u').

(** No two neighbours have the same author. *)
Fixpoint alternating (ts : list Transcription) : Prop :=
  match ts with
  | u :: ((u' :: _) as rest) => author u ≠ author u' ∧ alternating rest
  | _ => True
  end.

(** No message of the run completes a turn. *)
Definition sameTurn (ev : Event) : Prop :=
  match ev with
  | Message _ message => turnComplete message = false
  | Ended _ | Stop => True
  end.

(** Every utterance has some text. *)
Definition worded (ts : list Transcription) : Prop := Forall (λ u, text u ≠ []) ts.

(** Within a turn: the tracked speaker is the author of the last utterance,
    neighbours differ, and no speaker is tracked only while the transcript is
    empty. *)
Definition turnView (v : option Author * list Transcription) : Prop :=
  trackedView v ∧ alternating v.2 ∧ (v.1 = None → v.2 = []).

Section Times.
Local Open Scope Q_scope.

(** A trace of [start] calls without gaps from a cursor on: every chunk
    starts when the one before it ends. *)
Fixpoint gapless (cursor : Q) (trace : list (Q * AudioBuffer)) : Prop :=
  match trace with
  | [] => True
  | (start, chunk) :: rest => start == cursor ∧ gapless (start + duration chunk) rest
  end.

(** A trace of calls on source nodes in which no node is started twice and
    a node is only stopped after it was started; [known] holds the nodes
    started before the trace. *)
Fixpoint startedThenStopped (known : gset nat) (effects : list Effect) : Prop :=
  match effects with
  | [] => True
  | SourceStart source _ _ :: rest =>
      (source ∉ known) ∧ startedThenStopped ({[source]} ∪ known) rest
  | SourceStop source :: rest =>
      (source ∈ known) ∧ startedThenStopped known rest
  end.

(** The nodes created so far. *)
Definition createdSoFar (st : State) : gset nat :=
  list_to_set (seq 0 (created st)).

(** The positions at which the listener runs draw a picture: the frames of
    a canvas that encodes every picture as its position. *)
Definition visited (fuel : nat) (video : VideoAnalysis.VideoElement) : option (list Q) :=
  VideoAnalysis.extractFrames Q fuel video (VideoAnalysis.mkCanvas Q true Some).

(** Each position is strictly before the next. *)
Fixpoint ascending (positions : list Q) : Prop :=
  match positions with
  | p :: ((p' :: _) as rest) => p < p' ∧ ascending rest
  | _ => True
  end.

End Times.

End Readings.


Module Samples.
Import LanguageContext Utils.

(** A table with the default prompt in both languages. *)
Definition promptTable : Table := λ language,
  match language with
  | En => {[ "video_default_prompt" := EString (js "Describe this video.") ]}
  | Ar => {[ "video_default_prompt" := EString [0x635; 0x641]%N ]}
  end.

(** The speech component with a text and a source that is playing. *)
Definition speaking : TextToSpeech.State :=
  TextToSpeech.mkState (js "Hello") "Zephyr" false true None true true None.

(** The session after the user said "Hel". *)
Definition midUtterance : ConversationalAI.State :=
  ConversationalAI.mkState
    [ConversationalAI.mkTranscription ConversationalAI.User (js "Hel")]
    [ConversationalAI.mkTranscription ConversationalAI.User (js "Hel")]
    (Some ConversationalAI.User) true 0 ∅ 0.

End Samples.


(* ===================================================================== *)
(** * Properties of the localization provider *)
(* ===================================================================== *)

Module LanguageContextSpec.
Import LanguageContext Scenario.

Lemma entry_or_truthy (a b : option Entry) :
  entry_truthy a = true → entry_or a b = a.
Proof. unfold entry_or. intros ->. reflexivity. Qed.

Lemma entry_or_falsy (a b : option Entry) :
  entry_truthy a = false → entry_or a b = b.
Proof. unfold entry_or. intros ->. reflexivity. Qed.

(** C10. For every key, [t] returns the entry of the active language when
    that entry is truthy, and the English entry for the same key otherwise
    (a function entry applied to the arguments, a string entry as it is);
    the direction is right-to-left for Arabic and left-to-right for
    English. *)
Theorem t_active_entry_or_english (translations : Table) (language : Language)
    (key : string) (args : list Arg) :
  (entry_truthy (translations language !! key) = true →
     t translations language key args = render (translations language !! key) args)
  ∧ (entry_truthy (translations language !! key) = false →
     t translations language key args = render (translations En !! key) args)
  ∧ dir Ar = Rtl ∧ dir En = Ltr.
Proof.
  unfold t. repeat split.
  - intros H. now rewrite entry_or_truthy.
  - intros H. now rewrite entry_or_falsy.
Qed.

Lemma t_active_entry_or_english_witness :
  t sampleTable Ar "tab_tts" [] = Some [0x635; 0x648; 0x62A]%N
  ∧ t sampleTable Ar "header_title" [] = Some (js "Lisan AI")
  ∧ t sampleTable Ar "video_progress_sending" [ArgNumber 5] = Some (js "Sending frames").
Proof.
  split; [|split].
  - rewrite (proj1 (t_active_entry_or_english sampleTable Ar "tab_tts" []));
      vm_compute; reflexivity.
  - rewrite (proj1 (proj2 (t_active_entry_or_english sampleTable Ar "header_title" [])));
      vm_compute; reflexivity.
  - rewrite (proj1 (proj2 (t_active_entry_or_english sampleTable Ar
                             "video_progress_sending" [ArgNumber 5])));
      vm_compute; reflexivity.
Defined.

(** When neither table has a truthy entry, the result is the English entry
    read as a string, possibly [undefined]. *)
Lemma t_missing_everywhere (translations : Table) (language : Language)
    (key : string) (args : list Arg) :
  translations language !! key = None → translations En !! key = None →
  t translations language key args = None.
Proof. unfold t, entry_or. intros -> ->. reflexivity. Qed.

End LanguageContextSpec.


(* ===================================================================== *)
(** * Properties of [trim] *)
(* ===================================================================== *)

Module JSSpec.

Lemma trimStart_blank (s : jsstring) : blank s → trimStart s = [].
Proof.
  induction 1 as [|c s Hc _ IH]; simpl.
  - reflexivity.
  - rewrite Hc. exact IH.
Qed.

Lemma trim_blank (s : jsstring) : blank s → trim s = [].
Proof. intros H. unfold trim. rewrite (trimStart_blank s H). reflexivity. Qed.

Lemma trimStart_nil_blank (s : jsstring) : trimStart s = [] → blank s.
Proof.
  induction s as [|c s IH]; simpl.
  - constructor.
  - destruct (isWhiteSpace c) eqn:Hc; [|discriminate].
    intros H. constructor; [exact Hc | exact (IH H)].
Qed.

(** Only blank strings trim to the empty string. *)
Lemma trim_nil_blank (s : jsstring) : trim s = [] → blank s.
Proof.
  unfold trim, trimEnd. intros H.
  apply trimStart_nil_blank.
  destruct (trimStart s) as [|c s'] eqn:E; [reflexivity|].
  exfalso.
  assert (Hrev : trimStart (rev (c :: s')) = []).
  { apply (f_equal (@rev N)) in H. now rewrite rev_involutive in H. }
  apply trimStart_nil_blank in Hrev.
  assert (Hc : isWhiteSpace c = true).
  { unfold blank in Hrev. rewrite Forall_forall in Hrev. apply Hrev.
    apply list_elem_of_In, (proj1 (in_rev _ _)). left. reflexivity. }
  clear -E Hc.
  induction s as [|d s IH]; simpl in E; [discriminate|].
  destruct (isWhiteSpace d) eqn:Hd; [auto|].
  congruence.
Qed.

Lemma blank_spaces : blank (js "  ") ∧ blank [0x2003; 0x000A; 0x00A0]%N ∧ blank [].
Proof. repeat split; repeat constructor. Qed.

End JSSpec.


(* ===================================================================== *)
(** * Input validation of the synthesis and analysis flows *)
(* ===================================================================== *)

Module ValidationSpec.
Import LanguageContext JSSpec Scenario.

Section Flows.
Variable translations : Table.
Variable language : Language.
Local Abbreviation t := (t translations language).

Lemma handleGenerateSpeech_blank generateContent decodeAudioData
    (st : TextToSpeech.State) :
  blank (TextToSpeech.text st) →
  TextToSpeech.handleGenerateSpeech translations language generateContent
      decodeAudioData st
  = (TextToSpeech.setError (t "tts_error_empty_text" []) st, []).
Proof.
  intros H. unfold TextToSpeech.handleGenerateSpeech.
  rewrite (trim_blank _ H). reflexivity.
Qed.

Lemma handleAnalyze_blank (Frame : Type) generateContent loadeddata fuel video
    (canvas : VideoAnalysis.Canvas Frame) (st : VideoAnalysis.State) :
  blank (VideoAnalysis.prompt st) →
  VideoAnalysis.handleAnalyze Frame translations language generateContent
      loadeddata fuel video canvas st
  = (VideoAnalysis.setError (t "video_error_no_file_prompt" []) st, []).
Proof.
  intros H. unfold VideoAnalysis.handleAnalyze, VideoAnalysis.invalid.
  rewrite (trim_blank _ H). simpl.
  rewrite orb_true_r. reflexivity.
Qed.

(** With a text that is not blank the synthesis flow does reach the remote
    model: the guard is the only thing that stands before the call. *)
Lemma handleGenerateSpeech_calls_remote generateContent decodeAudioData
    (st : TextToSpeech.State) :
  ¬ blank (TextToSpeech.text st) →
  TextToSpeech.GenerateContent "gemini-2.5-flash-preview-tts"
      (TextToSpeech.text st) (TextToSpeech.selectedVoice st)
  ∈ snd (TextToSpeech.handleGenerateSpeech translations language generateContent
           decodeAudioData st).
Proof.
  intros Hnb. unfold TextToSpeech.handleGenerateSpeech.
  destruct (trim (TextToSpeech.text st)) as [|c s] eqn:E.
  { exfalso. apply Hnb. now apply trim_nil_blank. }
  simpl negb. cbv iota.
  unfold TextToSpeech.stopPlayback.
  destruct (TextToSpeech.audioSource st); simpl;
    unfold TextToSpeech.trySpeech; simpl;
    destruct (generateContent _ _) as [e|[payload|]]; simpl;
    try (destruct (truthy payload); simpl);
    try (destruct (TextToSpeech.audioContextOpen st); simpl);
    try (destruct (decodeAudioData payload); simpl);
    set_solver.
Qed.

End Flows.

(** C7. When the input is empty or white space only, [handleGenerateSpeech]
    (on its text) and [handleAnalyze] (on its prompt) only set the
    validation error; they perform no effect at all, so no request goes to
    the remote model, whatever the rest of the state and the environment. *)
Theorem blank_input_rejected_before_remote_call (translations : Table)
    (language : Language) (s : jsstring) (Hblank : blank s) :
  (∀ generateContent decodeAudioData (st : TextToSpeech.State),
     TextToSpeech.text st = s →
     TextToSpeech.handleGenerateSpeech translations language generateContent
         decodeAudioData st
     = (TextToSpeech.setError (t translations language "tts_error_empty_text" []) st, []))
  ∧ (∀ (Frame : Type) generateContent loadeddata fuel video
       (canvas : VideoAnalysis.Canvas Frame) (st : VideoAnalysis.State),
     VideoAnalysis.prompt st = s →
     VideoAnalysis.handleAnalyze Frame translations language generateContent
         loadeddata fuel video canvas st
     = (VideoAnalysis.setError
          (t translations language "video_error_no_file_prompt" []) st, [])).
Proof.
  split.
  - intros gen dec st <-. now apply handleGenerateSpeech_blank.
  - intros Frame gen loaded fuel video canvas st <-. now apply handleAnalyze_blank.
Qed.

Lemma blank_input_rejected_before_remote_call_witness :
  blank (js "   ")
  ∧ snd (TextToSpeech.handleGenerateSpeech sampleTable Ar
           (λ _ _, inr (Some (js "UklGRg=="))) (λ _, inl (mkError (js "bad")))
           blankSpeech) = []
  ∧ TextToSpeech.error
      (fst (TextToSpeech.handleGenerateSpeech sampleTable Ar
              (λ _ _, inr (Some (js "UklGRg=="))) (λ _, inl (mkError (js "bad")))
              blankSpeech)) = Some (js "Please enter some text.").
Proof.
  assert (Hblank : blank (js "   ")) by (repeat constructor).
  split; [exact Hblank|].
  rewrite (proj1 (blank_input_rejected_before_remote_call
                    sampleTable Ar (js "   ") Hblank)
             (λ _ _, inr (Some (js "UklGRg=="))) (λ _, inl (mkError (js "bad")))
             blankSpeech eq_refl).
  split; vm_compute; reflexivity.
Defined.

End ValidationSpec.


(* ===================================================================== *)
(** * Properties of the frame sampler and of its caller *)
(* ===================================================================== *)

Module VideoAnalysisSpec.
Import LanguageContext VideoAnalysis Vocabulary Scenario.

Lemma extractFrames_noContext fuel video :
  extractFrames Q (S fuel) video noContext = Some [].
Proof. reflexivity. Qed.

Lemma extractFrames_nullBlobs_zero_duration fuel :
  extractFrames Q (S fuel) (htmlVideo 0) nullBlobs = Some [].
Proof. reflexivity. Qed.



Section Termination.
Local Open Scope Q_scope.

Lemma Qlt_bool_false (a b : Q) : b <= a → Qlt_bool a b = false.
Proof.
  intros H. unfold Qlt_bool. apply negb_false_iff, Qle_bool_iff, H.
Qed.

Lemma Qlt_bool_true (a b : Q) : Qlt_bool a b = true → a < b.
Proof.
  unfold Qlt_bool. intros H%negb_true_iff.
  apply Qnot_le_lt. intros Hle%Qle_bool_iff. congruence.
Qed.

Lemma onSeeked_S (Frame : Type) fuel video (canvas : Canvas Frame) currentTime frames :
  onSeeked Frame (S fuel) video canvas currentTime frames
  = if negb (context2d Frame canvas) then Some []
    else
      let frames' :=
        match toBlob Frame canvas currentTime with
        | Some base64 => frames ++ [base64]
        | None => frames
        end in
      if Qlt_bool currentTime (duration video)
      then onSeeked Frame fuel video canvas (seekTo video (currentTime + 1)) frames'
      else Some frames'.
Proof. reflexivity. Qed.

(** Each listener run on a clamping element brings the position at least
    one second closer to the duration, or reaches it. *)
Lemma onSeeked_htmlVideo_returns (Frame : Type) (d : Q) (canvas : Canvas Frame)
    (n : nat) :
  ∀ currentTime frames,
    0 <= currentTime → d - currentTime <= inject_Z (Z.of_nat n) →
    ∃ result, onSeeked Frame (S n) (htmlVideo d) canvas currentTime frames = Some result.
Proof.
  induction n as [|n IH]; intros cur frames Hpos Hgap;
    rewrite onSeeked_S; destruct (context2d Frame canvas); cbn [negb];
    try (now eexists); cbv zeta.
  - rewrite Qlt_bool_false; [now eexists|]. cbn [duration htmlVideo].
    change (inject_Z (Z.of_nat 0)) with 0 in Hgap. lra.
  - destruct (Qlt_bool cur (duration (htmlVideo d))) eqn:E; [|now eexists].
    apply IH.
    + apply Q.le_max_l.
    + cbn [seekTo htmlVideo].
      rewrite Nat2Z.inj_succ, <- Z.add_1_r, inject_Z_plus in Hgap.
      change (inject_Z 1) with 1 in Hgap.
      assert (Hn : 0 <= inject_Z (Z.of_nat n)).
      { change 0 with (inject_Z 0). rewrite <- Zle_Qle. lia. }
      pose proof (Q.le_max_r 0 (Qmin (cur + 1) d)) as Hmax.
      set (position := Qmax 0 (Qmin (cur + 1) d)) in *.
      destruct (Q.min_spec (cur + 1) d) as [[_ Hmin]|[_ Hmin]];
        rewrite Hmin in Hmax; lra.
Qed.

Lemma Qlt_bool_intro (a b : Q) : a < b → Qlt_bool a b = true.
Proof.
  intros H. unfold Qlt_bool. apply negb_true_iff.
  destruct (Qle_bool b a) eqn:E; [|reflexivity].
  apply Qle_bool_iff in E. exfalso. exact (Qlt_not_le _ _ H E).
Qed.

(** While the position stays below the duration the listener seeks again. *)
Lemma onSeeked_pending (Frame : Type) (video : VideoElement) (canvas : Canvas Frame) :
  context2d Frame canvas = true →
  (∀ requested, seekTo video requested < duration video) →
  ∀ fuel currentTime frames,
    currentTime < duration video →
    onSeeked Frame fuel video canvas currentTime frames = None.
Proof.
  intros Hctx Hbelow fuel.
  induction fuel as [|fuel IH]; intros currentTime frames Hcur; [reflexivity|].
  rewrite onSeeked_S, Hctx. cbn [negb]. cbv zeta.
  rewrite (Qlt_bool_intro _ _ Hcur). apply IH, Hbelow.
Qed.

(** X3. Whether the sampler returns depends on the position reaching the
    duration. For a finite duration, on a media element that clamps its
    seeks to the range from zero to the duration, it does, whatever the
    canvas: from some number of listener runs on, the promise is resolved.
    On an element whose position stays below the duration after every seek
    (the seekable range ends before the duration, or the duration is
    unbounded), with a canvas that has a context, the promise is never
    resolved, however many times the listener runs. *)
Lemma sampler_returns_when_duration_is_reached (Frame : Type) (d : Q)
    (canvas : Canvas Frame) :
  (∃ fuel, ∀ more, ∃ frames,
     extractFrames Frame (fuel + more) (htmlVideo d) canvas = Some frames)
  ∧ (∀ video : VideoElement,
       context2d Frame canvas = true →
       (∀ requested, seekTo video requested < duration video) →
       ∀ fuel, extractFrames Frame fuel video canvas = None).
Proof.
  split.
  - set (start := seekTo (htmlVideo d) 0).
    assert (Hstart : 0 <= start) by apply Q.le_max_l.
    exists (S (Z.to_nat (Qceiling (d - start)))). intros more.
    unfold extractFrames. fold start.
    assert (Hgap : d - start
                   <= inject_Z (Z.of_nat (Z.to_nat (Qceiling (d - start)) + more))).
    { apply Qle_trans with (inject_Z (Qceiling (d - start))); [apply Qle_ceiling|].
      rewrite <- Zle_Qle. lia. }
    exact (onSeeked_htmlVideo_returns Frame d canvas _ start [] Hstart Hgap).
  - intros video Hctx Hbelow fuel. unfold extractFrames.
    apply onSeeked_pending; [exact Hctx|exact Hbelow|apply Hbelow].
Qed.

Lemma sampler_returns_when_duration_is_reached_witness :
  (∃ fuel, ∀ more, ∃ frames,
     extractFrames Q (fuel + more) (htmlVideo (34 # 10)) everyFrame = Some frames)
  ∧ extractFrames Q 1000 shortOfDuration everyFrame = None.
Proof.
  destruct (sampler_returns_when_duration_is_reached Q (34 # 10) everyFrame)
    as [Hreturns Hpending].
  split; [exact Hreturns|].
  apply Hpending; [reflexivity|].
  intros requested. cbn [seekTo duration shortOfDuration].
  apply Q.max_lub_lt; [reflexivity|].
  apply Qle_lt_trans with 5; [apply Q.le_min_r|reflexivity].
Defined.

End Termination.

Section Caller.
Variable Frame : Type.
Variable translations : Table.
Variable language : Language.
Variable generateContent : jsstring → list Frame → Error + jsstring.
Local Abbreviation t := (t translations language).


(** With at least one frame the caller does send the request. *)
Lemma tryAnalyze_calls_remote (st : State) (frame : Frame) (frames : list Frame) :
  GenerateContent Frame "gemini-2.5-pro" (prompt st) (frame :: frames)
  ∈ snd (fst (tryAnalyze Frame translations language generateContent st
                (frame :: frames))).
Proof.
  unfold tryAnalyze. simpl.
  destruct (generateContent _ _); simpl; set_solver.
Qed.

End Caller.




(** Against C3 as stated: the sampler on a video of 3.4 seconds does not
    stop at four frames; whatever the number of listener runs allowed, a run
    that returns does not return four frames. *)
Lemma sampling_3_4_not_four_frames :
  ¬ (∃ fuel frames,
       extractFrames Q fuel (htmlVideo (34 # 10)) everyFrame = Some frames
       ∧ length frames = 4%nat).
Proof.
  intros (fuel & frames & Hrun & Hlen).
  destruct fuel as [|[|[|[|[|fuel]]]]]; vm_compute in Hrun;
    try discriminate Hrun.
  injection Hrun as <-. discriminate Hlen.
Qed.

(** C3 (amended). For a video of 3.4 seconds the sampler returns five
    frames: the listener appends a frame on every completed seek before it
    compares the position with the duration, so after the frames at 0, 1, 2
    and 3 the seek past the end still contributes one, taken where the
    element then stands (3.4 on an element that clamps, 4 on one that would
    not). Five listener runs suffice, and fewer leave the promise pending. *)
Theorem sampling_3_4_five_frames (n : nat) :
  extractFrames Q (5 + n) (htmlVideo (34 # 10)) everyFrame
    = Some [0%Q; 1%Q; 2%Q; 3%Q; (34 # 10)%Q]
  ∧ extractFrames Q (5 + n) (unclampedVideo (34 # 10)) everyFrame
    = Some [0%Q; 1%Q; 2%Q; 3%Q; 4%Q]
  ∧ extractFrames Q 4 (htmlVideo (34 # 10)) everyFrame = None.
Proof. repeat split. Qed.

(** On a video of exactly 3 seconds the same loop returns four frames. *)
Lemma sampling_3_four_frames (n : nat) :
  extractFrames Q (4 + n) (htmlVideo 3) everyFrame = Some [0%Q; 1%Q; 2%Q; 3%Q].
Proof. reflexivity. Qed.

End VideoAnalysisSpec.


(* ===================================================================== *)
(** * The transcript assembler *)
(* ===================================================================== *)

Module TranscriptSpec.
Import Utils ConversationalAI Vocabulary Scenario.

Lemma truthy_nonempty (s : jsstring) : s ≠ [] → truthy s = true.
Proof. destruct s; [contradiction|reflexivity]. Qed.

Lemma appendToLast_snoc (s : jsstring) (front : list Transcription) (u : Transcription) :
  appendToLast s (front ++ [u])
  = Some (front ++ [mkTranscription (author u) (text u ++ s)]).
Proof.
  unfold appendToLast. rewrite last_snoc, length_app. simpl.
  replace (length front + 1 - 1)%nat with (length front + 0)%nat by lia.
  now rewrite insert_app_r.
Qed.

(** The speaker differs from the tracked one, or tracking was reset: a new
    utterance holding the fragment is pushed. *)
Lemma onTranscription_new_utterance (who : Author) (s : jsstring) (st : State) :
  s ≠ [] → lastAuthorRef st ≠ Some who →
  onTranscription who (Some s) st
  = inr (setTranscriptionsRef (transcriptionsRef st ++ [mkTranscription who s])
           (setLastAuthorRef (Some who) st), true).
Proof.
  intros Hs Hwho. unfold onTranscription. simpl.
  rewrite (truthy_nonempty s Hs).
  rewrite decide_False by exact Hwho.
  simpl. rewrite appendToLast_snoc. reflexivity.
Qed.

(** Same speaker as the tracked one: the fragment is appended to the last
    utterance and nothing is pushed. *)
Lemma onTranscription_same_speaker (who : Author) (s : jsstring) (st : State)
    (front : list Transcription) (u : Transcription) :
  s ≠ [] → lastAuthorRef st = Some who → transcriptionsRef st = front ++ [u] →
  onTranscription who (Some s) st
  = inr (setTranscriptionsRef (front ++ [mkTranscription (author u) (text u ++ s)]) st,
         true).
Proof.
  intros Hs Hwho Hts. unfold onTranscription. simpl.
  rewrite (truthy_nonempty s Hs).
  rewrite decide_True by exact Hwho.
  rewrite Hts, appendToLast_snoc. reflexivity.
Qed.

(** A fragment without text changes nothing. *)
Lemma onTranscription_empty (who : Author) (st : State) :
  onTranscription who (Some []) st = inr (st, false)
  ∧ onTranscription who None st = inr (st, false).
Proof. split; reflexivity. Qed.

Lemma onTranscription_tracked (who : Author) (fragment : option jsstring) (st : State) :
  tracked st →
  ∃ st' updated, onTranscription who fragment st = inr (st', updated) ∧ tracked st'.
Proof.
  intros Htr.
  destruct fragment as [[|c s]|];
    [exists st, false; now split | | exists st, false; now split].
  destruct (decide (lastAuthorRef st = Some who)) as [Heq|Hne].
  - destruct (Htr who Heq) as (front & u & Hts & Hu).
    eexists _, true. split.
    + now apply (onTranscription_same_speaker who (c :: s) st front u).
    + intros who' Hwho'. simpl in *. eexists front, _. split; [reflexivity|].
      simpl. congruence.
  - eexists _, true. split.
    + now apply onTranscription_new_utterance.
    + intros who' Hwho'. simpl in *. eexists _, _. split; [reflexivity|].
      simpl. congruence.
Qed.

(** Against C4 as stated: after user speech, a model fragment with empty
    text starts no utterance although the speaker differs from the tracked
    one. *)
Lemma empty_fragment_starts_no_utterance :
  let st := fst (run noAudio started [Message 0 (userFragment (js "hello"))]) in
  let st' := fst (run noAudio st [Message 0 (modelFragment [])]) in
  ¬ (lastAuthorRef st ≠ Some Model →
     length (transcriptionsRef st') = S (length (transcriptionsRef st))).
Proof.
  intros st st' Hclaim.
  assert (Hdiff : lastAuthorRef st ≠ Some Model) by (vm_compute; discriminate).
  specialize (Hclaim Hdiff). vm_compute in Hclaim. discriminate Hclaim.
Qed.

(** C4 (amended). For a fragment with non-empty text: when its speaker is
    not the tracked one (another speaker spoke last, or the tracking was
    reset by a completed turn or a new session) a new utterance holding the
    fragment is pushed and the speaker becomes the tracked one; when it is
    the tracked one the text is appended to the last utterance. A fragment
    whose text is empty changes nothing. From the start of a session, the
    fragments user, user, model, user give three utterances, and a completed
    turn between two user fragments separates them. *)
Theorem fragments_start_or_extend_utterances
    (decodeAudioData : jsstring → Error + AudioBuffer)
    (s1 s2 s3 s4 : jsstring)
    (H1 : s1 ≠ []) (H2 : s2 ≠ []) (H3 : s3 ≠ []) (H4 : s4 ≠ []) :
  (∀ who st, lastAuthorRef st ≠ Some who →
     onTranscription who (Some s1) st
     = inr (setTranscriptionsRef (transcriptionsRef st ++ [mkTranscription who s1])
              (setLastAuthorRef (Some who) st), true))
  ∧ (∀ who st front u, lastAuthorRef st = Some who →
       transcriptionsRef st = front ++ [u] →
       onTranscription who (Some s1) st
       = inr (setTranscriptionsRef
                (front ++ [mkTranscription (author u) (text u ++ s1)]) st, true))
  ∧ (∀ who st, onTranscription who (Some []) st = inr (st, false))
  ∧ transcriptionsRef
      (fst (run decodeAudioData started
              [Message 0 (userFragment s1); Message 0 (userFragment s2);
               Message 0 (modelFragment s3); Message 0 (userFragment s4)]))
    = [mkTranscription User (s1 ++ s2); mkTranscription Model s3;
       mkTranscription User s4]
  ∧ transcriptionsRef
      (fst (run decodeAudioData started
              [Message 0 (userFragment s1); Message 0 turnCompleted;
               Message 0 (userFragment s2)]))
    = [mkTranscription User s1; mkTranscription User s2].
Proof.
  split; [|split; [|split; [|split]]].
  - intros who st Hne. now apply onTranscription_new_utterance.
  - intros who st front u Heq Hts. now apply onTranscription_same_speaker.
  - intros who st. reflexivity.
  - destruct s1 as [|c1 r1]; [contradiction|].
    destruct s2 as [|c2 r2]; [contradiction|].
    destruct s3 as [|c3 r3]; [contradiction|].
    destruct s4 as [|c4 r4]; [contradiction|].
    reflexivity.
  - destruct s1 as [|c1 r1]; [contradiction|].
    destruct s2 as [|c2 r2]; [contradiction|].
    reflexivity.
Qed.

Lemma fragments_start_or_extend_utterances_witness :
  transcriptionsRef
    (fst (run noAudio started
            [Message 0 (userFragment (js "Hel")); Message 0 (userFragment (js "lo"));
             Message 0 (modelFragment (js "Hi")); Message 0 (userFragment (js "Bye"))]))
  = [mkTranscription User (js "Hello"); mkTranscription Model (js "Hi");
     mkTranscription User (js "Bye")].
Proof.
  apply (fragments_start_or_extend_utterances noAudio
           (js "Hel") (js "lo") (js "Hi") (js "Bye")); discriminate.
Defined.

End TranscriptSpec.


(* ===================================================================== *)
(** * The playback sequencer *)
(* ===================================================================== *)

Module SequencerSpec.
Import Utils ConversationalAI Vocabulary Scenario.

Local Open Scope Q_scope.

Lemma starts_start (source : nat) (when : Q) (buffer : AudioBuffer)
    (effects : list Effect) :
  starts (SourceStart source when buffer :: effects) = (when, buffer) :: starts effects.
Proof. reflexivity. Qed.

Lemma duration_nonneg (buffer : AudioBuffer) : 0 <= duration buffer.
Proof. unfold duration, Qle. simpl. lia. Qed.

(** Every non-negative rational is the duration of some buffer. *)
Lemma every_duration (d : Q) : 0 <= d → ∃ buffer, duration buffer = d.
Proof.
  destruct d as [n p]. unfold Qle. simpl. intros Hn.
  exists (mkAudioBuffer (replicate (Z.to_nat n) 0%Z) p).
  unfold duration. simpl. rewrite length_replicate. f_equal. lia.
Qed.

Lemma Qmax_zero (now : Q) : 0 <= now → Qmax now 0 = now.
Proof.
  intros H. unfold Qmax, GenericMinMax.gmax.
  destruct (now ?= 0) eqn:E; try reflexivity.
  apply Qlt_alt in E. exfalso. exact (Qlt_not_le _ _ E H).
Qed.

Lemma ruleSchedule_in_order (nextStartTime : Q) (chunks : list (Q * AudioBuffer)) :
  InOrder (ruleSchedule nextStartTime chunks).
Proof.
  revert nextStartTime.
  induction chunks as [|[now chunk] rest IH]; intros cursor; simpl.
  - constructor.
  - destruct rest as [|[now' chunk'] rest'].
    + constructor.
    + specialize (IH (Qmax now cursor + duration chunk)). simpl in IH |- *.
      constructor; [|apply Q.le_max_r|exact IH].
      apply Qle_trans with (Qmax now cursor + duration chunk); [|apply Q.le_max_r].
      rewrite <- (Qplus_0_r (Qmax now cursor)) at 1.
      apply Qplus_le_r, duration_nonneg.
Qed.

Section Session.
Variable decodeAudioData : jsstring → Error + AudioBuffer.
Local Abbreviation onmessage := (onmessage decodeAudioData).
Local Abbreviation step := (step decodeAudioData).
Local Abbreviation run := (run decodeAudioData).

(** A chunk that arrives while the output context exists and that decodes is
    scheduled by the rule. *)
Lemma onmessage_audioChunk (now : Q) (payload : jsstring) (buffer : AudioBuffer)
    (st : State) :
  outputAudioContextRef st = true → payload ≠ [] →
  decodeAudioData payload = inr buffer →
  onmessage now (audioChunk payload) st
  = (setAudioSourcesRef ({[created st]} ∪ audioSourcesRef st)
       (setNextStartTimeRef (Qmax now (nextStartTimeRef st) + duration buffer)
          (setCreated (S (created st)) st)),
     [SourceStart (created st) (Qmax now (nextStartTimeRef st)) buffer], None).
Proof.
  intros Hctx Hp Hdec. unfold ConversationalAI.onmessage. simpl.
  rewrite (TranscriptSpec.truthy_nonempty payload Hp), Hctx, Hdec.
  reflexivity.
Qed.

(** The interrupt signal alone is handled in every state. *)
Lemma onmessage_interruptSignal (now : Q) (st : State) :
  onmessage now interruptSignal st
  = (setNextStartTimeRef 0 (setAudioSourcesRef ∅ st),
     map SourceStop (elements (audioSourcesRef st)), None).
Proof. reflexivity. Qed.

(** The transcription blocks leave the sequencer alone. *)
Lemma onTranscription_sequencer (who : Author) (fragment : option jsstring)
    (st st' : State) (updated : bool) :
  onTranscription who fragment st = inr (st', updated) →
  nextStartTimeRef st' = nextStartTimeRef st
  ∧ audioSourcesRef st' = audioSourcesRef st
  ∧ created st' = created st
  ∧ outputAudioContextRef st' = outputAudioContextRef st.
Proof.
  unfold onTranscription.
  destruct (truthy_opt fragment); [|intros [= <- _]; now repeat split].
  destruct (decide (lastAuthorRef st = Some who));
    destruct (appendToLast _ _); intros [= <- _]; now repeat split.
Qed.

Lemma run_chunks (st : State) (chunks : list (Q * jsstring * AudioBuffer)) :
  outputAudioContextRef st = true → Forall (decodes decodeAudioData) chunks →
  starts (snd (run st (map arrives chunks)))
  = ruleSchedule (nextStartTimeRef st) (map (λ c, (c.1.1, c.2)) chunks)
  ∧ outputAudioContextRef (fst (run st (map arrives chunks))) = true.
Proof.
  intros Hctx Hall. revert st Hctx.
  induction Hall as [|[[now payload] buffer] rest [Hp Hdec] _ IH]; intros st Hctx.
  - now split.
  - simpl in Hp, Hdec. cbn [map ConversationalAI.run arrives fst snd].
    unfold ConversationalAI.step.
    change (arrives (now, payload, buffer)) with (Message now (audioChunk payload)).
    cbv iota.
    rewrite (onmessage_audioChunk now payload buffer st Hctx Hp Hdec).
    cbn [fst snd].
    match goal with |- context [ConversationalAI.run _ ?s _] => set (st1 := s) end.
    destruct (IH st1 Hctx) as [IHs IHc].
    destruct (ConversationalAI.run decodeAudioData st1 (map arrives rest))
      as [st2 effects] eqn:Erun.
    cbn [fst snd] in *. split; [|exact IHc].
    cbn [app]. rewrite starts_start, IHs. reflexivity.
Qed.

End Session.

Section Handler.
Variable decodeAudioData : jsstring → Error + AudioBuffer.
Local Abbreviation onmessage := (onmessage decodeAudioData).

(** What [onmessage] can do to the sequencer: nothing when it throws;
    otherwise at most one chunk is scheduled, and then the interrupt block
    runs if the message is flagged. *)
Lemma onmessage_shape (now : Q) (message : LiveServerMessage) (st : State) :
  (∃ st0 e, onmessage now message st = (st0, [], Some e)
            ∧ sequencer st0 = sequencer st)
  ∨ (∃ st4 st5 started,
       sequencer st4 = sequencer st
       ∧ ((st5, started) = (st4, [])
          ∨ ∃ buffer, (st5, started) = schedule now buffer st4)
       ∧ onmessage now message st
         = if interrupted message
           then ((interrupt st5).1, started ++ (interrupt st5).2, None)
           else (st5, started, None)).
Proof.
  unfold ConversationalAI.onmessage.
  destruct (onTranscription User _ st) as [e|[st1 u1]] eqn:E1.
  { left. now exists st, e. }
  apply onTranscription_sequencer in E1 as (Hn1 & Ha1 & Hc1 & _).
  destruct (onTranscription Model _ st1) as [e|[st2 u2]] eqn:E2.
  { left. exists st1, e. split; [reflexivity|]. unfold sequencer. congruence. }
  apply onTranscription_sequencer in E2 as (Hn2 & Ha2 & Hc2 & _).
  match goal with
  | |- context [if turnComplete message then setLastAuthorRef None ?s else ?s] =>
      set (st3 := s)
  end.
  set (st4 := if turnComplete message then setLastAuthorRef None st3 else st3).
  assert (Hseq : sequencer st4 = sequencer st).
  { unfold sequencer.
    assert (sequencer st3 = sequencer st2) as [= H1 H2 H3]
      by (subst st3; now destruct (u1 || u2)).
    assert (sequencer st4 = sequencer st3) as [= H4 H5 H6]
      by (subst st4; now destruct (turnComplete message)).
    congruence. }
  destruct (truthy_opt (inlineData message) && outputAudioContextRef st4).
  - destruct (decodeAudioData _) as [e|buffer].
    + left. now exists st4, e.
    + right. exists st4, (schedule now buffer st4).1, (schedule now buffer st4).2.
      split; [exact Hseq|]. split; [right; now exists buffer|].
      now destruct (interrupted message).
  - right. exists st4, st4, []. split; [exact Hseq|]. split; [now left|].
    now destruct (interrupted message).
Qed.

End Handler.

(** C1. Chunks that arrive one after the other, each at an arbitrary clock
    reading, are started exactly as the rule says: the trace of [start]
    calls is the schedule in which each chunk starts at the later of the
    clock reading and the cursor, and the cursor then moves to that start
    plus the duration. In that schedule start times do not decrease and no
    chunk ends after the next one starts; the chunks keep their order of
    arrival. *)
Theorem chunks_play_in_order_without_overlap
    (decodeAudioData : jsstring → Error + AudioBuffer) (st : State)
    (chunks : list (Q * jsstring * AudioBuffer))
    (Hcontext : outputAudioContextRef st = true)
    (Hdecodes : Forall (decodes decodeAudioData) chunks) :
  let trace := starts (snd (run decodeAudioData st (map arrives chunks))) in
  trace = ruleSchedule (nextStartTimeRef st) (map (λ c, (c.1.1, c.2)) chunks)
  ∧ InOrder trace
  ∧ map snd trace = map snd chunks.
Proof.
  intros trace. subst trace.
  destruct (run_chunks decodeAudioData st chunks Hcontext Hdecodes) as [-> _].
  split; [reflexivity|]. split; [apply ruleSchedule_in_order|].
  clear. generalize (nextStartTimeRef st).
  induction chunks as [|[[now payload] buffer] rest IH]; intros cursor; simpl.
  - reflexivity.
  - now rewrite IH.
Qed.

Lemma chunks_play_in_order_without_overlap_witness :
  starts (snd (run sampleDecoder (startConversation mounted)
                 (map arrives [(0, js "A", oneMs); (3 # 10000, js "B", halfMs);
                               (2, js "A", oneMs)])))
  = [(0, oneMs); (24 # 24000, halfMs); (2, oneMs)].
Proof.
  destruct (chunks_play_in_order_without_overlap sampleDecoder
              (startConversation mounted)
              [(0, js "A", oneMs); (3 # 10000, js "B", halfMs);
               (2, js "A", oneMs)]) as [Htrace _].
  - reflexivity.
  - repeat constructor; discriminate.
  - rewrite Htrace. vm_compute. reflexivity.
Defined.

(** C2. Whenever a message flagged as interrupted is handled to its end,
    every source that was in the active set is stopped, the set is left
    empty and the cursor is zero; a chunk that arrives afterwards, at a
    clock reading that is not negative, starts at that reading. The bare
    interrupt signal is handled to its end in every state. *)
Theorem interrupt_clears_and_resets
    (decodeAudioData : jsstring → Error + AudioBuffer) (st : State) (now : Q)
    (message : LiveServerMessage) (result : State) (effects : list Effect)
    (Hflag : interrupted message = true)
    (Hdone : onmessage decodeAudioData now message st = (result, effects, None)) :
  audioSourcesRef result = ∅
  ∧ nextStartTimeRef result = 0
  ∧ (∀ source, source ∈ audioSourcesRef st → SourceStop source ∈ effects)
  ∧ (∀ later payload buffer,
       0 <= later → outputAudioContextRef result = true → payload ≠ [] →
       decodeAudioData payload = inr buffer →
       (onmessage decodeAudioData later (audioChunk payload) result).1.2
       = [SourceStart (created result) later buffer])
  ∧ (∀ st0 now0, (onmessage decodeAudioData now0 interruptSignal st0).2 = None).
Proof.
  destruct (onmessage_shape decodeAudioData now message st)
    as [(st0 & e & Hthrow & _)|(st4 & st5 & started & Hseq & Hsched & Hrun)].
  { rewrite Hthrow in Hdone. discriminate Hdone. }
  rewrite Hflag, Hdone in Hrun. injection Hrun as -> ->.
  assert (Hsub : audioSourcesRef st ⊆ audioSourcesRef st5).
  { injection Hseq as _ Hset _.
    destruct Hsched as [Heq|(buffer & Heq)]; injection Heq as Hst5 _;
      rewrite Hst5; simpl; rewrite Hset; [done | apply union_subseteq_r]. }
  split; [reflexivity|]. split; [reflexivity|]. split; [|split].
  - intros source Hin. apply elem_of_app. right. simpl.
    apply list_elem_of_fmap. exists source. split; [reflexivity|].
    apply elem_of_elements, Hsub, Hin.
  - intros later payload buffer Hlater Hctx Hp Hdec.
    rewrite (onmessage_audioChunk decodeAudioData later payload buffer _ Hctx Hp Hdec).
    cbn [fst snd]. simpl nextStartTimeRef. now rewrite (Qmax_zero later Hlater).
  - reflexivity.
Qed.

Lemma interrupt_clears_and_resets_witness :
  let playing := (run sampleDecoder (startConversation mounted)
                    [Message 0 (audioChunk (js "A")); Message 0 (audioChunk (js "B"))]).1 in
  let interrupted := (onmessage sampleDecoder (1 # 2000) interruptSignal playing).1.1 in
  nextStartTimeRef playing = (864000 # 576000000)
  ∧ audioSourcesRef interrupted = ∅
  ∧ nextStartTimeRef interrupted = 0
  ∧ (onmessage sampleDecoder (1 # 1000) (audioChunk (js "B")) interrupted).1.2
    = [SourceStart 2 (1 # 1000) halfMs].
Proof.
  intros playing interrupted.
  destruct (interrupt_clears_and_resets sampleDecoder playing (1 # 2000)
              interruptSignal interrupted
              (onmessage sampleDecoder (1 # 2000) interruptSignal playing).1.2
              eq_refl eq_refl) as (Hset & Hcursor & _ & Hnext & _).
  split; [vm_compute; reflexivity|].
  split; [exact Hset|]. split; [exact Hcursor|].
  apply (Hnext (1 # 1000) (js "B") halfMs);
    [discriminate | reflexivity | discriminate | reflexivity].
Defined.

Lemma step_quiet_cursor (decodeAudioData : jsstring → Error + AudioBuffer)
    (st : State) (ev : Event) :
  quiet ev →
  nextStartTimeRef st <= nextStartTimeRef (step decodeAudioData st ev).1.
Proof.
  destruct ev as [now message|source|]; simpl; [|intros _; apply Qle_refl..].
  intros Hq.
  destruct (onmessage_shape decodeAudioData now message st)
    as [(st0 & e & Hrun & Hseq)|(st4 & st5 & started & Hseq & Hsched & Hrun)];
    rewrite Hrun; injection Hseq as Hcur _ _.
  { cbn [fst]. rewrite Hcur. apply Qle_refl. }
  rewrite Hq. cbn [fst].
  destruct Hsched as [Heq|(buffer & Heq)]; injection Heq as Hst5 _; rewrite Hst5.
  - rewrite Hcur. apply Qle_refl.
  - simpl. rewrite Hcur.
    apply Qle_trans with (Qmax now (nextStartTimeRef st)); [apply Q.le_max_r|].
    rewrite <- (Qplus_0_r (Qmax now (nextStartTimeRef st))) at 1.
    apply Qplus_le_r, duration_nonneg.
Qed.

(** Against C5 as stated: after a chunk has been scheduled the interrupt
    moves the cursor back, from one millisecond to zero. *)
Lemma interrupt_moves_cursor_backward :
  let st := (run sampleDecoder (startConversation mounted)
               [Message 0 (audioChunk (js "A"))]).1 in
  ¬ (nextStartTimeRef st
     <= nextStartTimeRef (step sampleDecoder st (Message 0 interruptSignal)).1).
Proof. intros st H. vm_compute in H. apply H. reflexivity. Qed.

(** C5 (amended). Along every sequence of chunk arrivals, completions and
    session stops that contains no interrupt, the cursor never moves
    backward; an interrupt sets the cursor to zero. *)
Theorem cursor_monotone_between_interrupts
    (decodeAudioData : jsstring → Error + AudioBuffer) (st : State)
    (evs : list Event) (Hquiet : Forall quiet evs) :
  nextStartTimeRef st <= nextStartTimeRef (run decodeAudioData st evs).1
  ∧ ∀ now, nextStartTimeRef (step decodeAudioData st (Message now interruptSignal)).1 = 0.
Proof.
  split; [|reflexivity].
  revert st. induction Hquiet as [|ev evs Hev _ IH]; intros st.
  - apply Qle_refl.
  - cbn [ConversationalAI.run].
    pose proof (step_quiet_cursor decodeAudioData st ev Hev) as Hstep.
    destruct (step decodeAudioData st ev) as [st1 effects].
    specialize (IH st1).
    destruct (run decodeAudioData st1 evs) as [st2 effects'].
    cbn [fst] in *. now apply Qle_trans with (nextStartTimeRef st1).
Qed.

Lemma cursor_monotone_between_interrupts_witness :
  0 <= nextStartTimeRef
         (run sampleDecoder (startConversation mounted)
            [Message 0 (audioChunk (js "A")); Ended 0;
             Message (5 # 1) (audioChunk (js "B")); Stop]).1.
Proof.
  apply (cursor_monotone_between_interrupts sampleDecoder (startConversation mounted)
           [Message 0 (audioChunk (js "A")); Ended 0;
            Message (5 # 1) (audioChunk (js "B")); Stop]).
  repeat constructor.
Defined.

(** ** Bookkeeping of the active set *)

Lemma startedIn_app (effects effects' : list Effect) :
  startedIn (effects ++ effects') = startedIn effects ++ startedIn effects'.
Proof. unfold startedIn. apply omap_app. Qed.

Lemma startedIn_stops (sources : list nat) : startedIn (map SourceStop sources) = [].
Proof. induction sources as [|h l IH]; [reflexivity|exact IH]. Qed.

Lemma elem_of_stops (source : nat) (sources : list nat) :
  source ∈ sources → SourceStop source ∈ map SourceStop sources.
Proof. intros Hin. apply list_elem_of_fmap. now exists source. Qed.

(** A handle that occurs once among the first components has one entry. *)
Lemma NoDup_fst_functional (log : list (nat * Cause)) (source : nat)
    (cause cause' : Cause) :
  NoDup log.*1 → (source, cause) ∈ log → (source, cause') ∈ log → cause = cause'.
Proof.
  induction log as [|[h c] log IH]; intros Hnodup Hin Hin'.
  - now apply elem_of_nil in Hin.
  - cbn in Hnodup. apply NoDup_cons in Hnodup as [Hout Hnodup].
    assert (Hfst : ∀ c0, (source, c0) ∈ log → source ∈ log.*1).
    { intros c0 H. apply list_elem_of_fmap. now exists (source, c0). }
    apply elem_of_cons in Hin as [Heq|Hin];
      apply elem_of_cons in Hin' as [Heq'|Hin'].
    + congruence.
    + injection Heq as -> ->. exfalso. apply Hout. exact (Hfst _ Hin').
    + injection Heq' as -> ->. exfalso. apply Hout. exact (Hfst _ Hin).
    + now apply IH.
Qed.

Section Bookkeeping.
Variable decodeAudioData : jsstring → Error + AudioBuffer.
Local Abbreviation onmessage := (onmessage decodeAudioData).
Local Abbreviation step := (step decodeAudioData).
Local Abbreviation run := (run decodeAudioData).
Local Abbreviation removedAt := (removedAt decodeAudioData).
Local Abbreviation removalLog := (removalLog decodeAudioData).
Local Abbreviation clears := (clears decodeAudioData).

Lemma run_cons (st : State) (ev : Event) (evs : list Event) :
  (run st (ev :: evs)).1 = (run (step st ev).1 evs).1.
Proof.
  change (run st (ev :: evs))
    with (let '(st1, effects) := step st ev in
          let '(st2, effects') := run st1 evs in (st2, effects ++ effects')).
  destruct (step st ev) as [st1 effects]. cbn [fst].
  now destruct (run st1 evs).
Qed.

Lemma run_effects_cons (st : State) (ev : Event) (evs : list Event) :
  (run st (ev :: evs)).2 = (step st ev).2 ++ (run (step st ev).1 evs).2.
Proof.
  change (run st (ev :: evs))
    with (let '(st1, effects) := step st ev in
          let '(st2, effects') := run st1 evs in (st2, effects ++ effects')).
  destruct (step st ev) as [st1 effects]. cbn [fst snd].
  now destruct (run st1 evs).
Qed.

Lemma run_app (st : State) (evs evs' : list Event) :
  (run st (evs ++ evs')).1 = (run (run st evs).1 evs').1.
Proof.
  revert st. induction evs as [|ev evs IH]; intros st; [reflexivity|].
  rewrite <- app_comm_cons, !run_cons. apply IH.
Qed.

Lemma removalLog_app (st : State) (evs evs' : list Event) :
  removalLog st (evs ++ evs')
  = removalLog st evs ++ removalLog (run st evs).1 evs'.
Proof.
  revert st. induction evs as [|ev evs IH]; intros st; [reflexivity|].
  rewrite <- app_comm_cons, run_cons. cbn [Vocabulary.removalLog].
  now rewrite IH, app_assoc.
Qed.

(** A step creates at most one source, and whatever is in the set after it
    was there before or has just been created. *)
Lemma step_sources (st : State) (ev : Event) :
  (created st ≤ created (step st ev).1)%nat
  ∧ ∀ source, source ∈ audioSourcesRef (step st ev).1 →
      source ∈ audioSourcesRef st
      ∨ (created st ≤ source < created (step st ev).1)%nat.
Proof.
  destruct ev as [now message|ended|]; simpl.
  - destruct (onmessage_shape decodeAudioData now message st)
      as [(st0 & e & Hrun & Hseq)|(st4 & st5 & started & Hseq & Hsched & Hrun)];
      rewrite Hrun; injection Hseq as _ Hset Hcreated.
    { cbn [fst]. rewrite Hset, Hcreated. split; [lia|]. now left. }
    assert (H5 : (created st ≤ created st5)%nat
                 ∧ ∀ source, source ∈ audioSourcesRef st5 →
                     source ∈ audioSourcesRef st
                     ∨ (created st ≤ source < created st5)%nat).
    { destruct Hsched as [Heq|(buffer & Heq)]; injection Heq as Hst5 _;
        rewrite Hst5; simpl; rewrite ?Hset, ?Hcreated.
      - split; [lia|]. now left.
      - split; [lia|]. intros source [->%elem_of_singleton|Hin]%elem_of_union.
        + right. lia.
        + now left. }
    destruct (interrupted message); cbn [fst]; [|exact H5].
    simpl. split; [apply H5|]. intros source Hin. now apply not_elem_of_empty in Hin.
  - split; [lia|]. intros source Hin%elem_of_difference. left. apply Hin.
  - split; [lia|]. intros source Hin. now apply not_elem_of_empty in Hin.
Qed.

Lemma step_allCreated (st : State) (ev : Event) :
  allCreated st → allCreated (step st ev).1.
Proof.
  intros Hall source Hin.
  destruct (step_sources st ev) as [Hle Hsub].
  destruct (Hsub source Hin) as [Hold|Hnew]; [|lia].
  specialize (Hall source Hold). lia.
Qed.

(** A step starts at most one source, the one it creates. *)
Lemma step_started (st : State) (ev : Event) :
  (startedIn (step st ev).2 = [] ∧ created (step st ev).1 = created st)
  ∨ (startedIn (step st ev).2 = [created st]
     ∧ created (step st ev).1 = S (created st)).
Proof.
  destruct ev as [now message|ended|]; cbn [ConversationalAI.step].
  - destruct (onmessage_shape decodeAudioData now message st)
      as [(st0 & e & Hrun & Hseq)|(st4 & st5 & started & Hseq & Hsched & Hrun)];
      rewrite Hrun; injection Hseq as _ _ Hcreated.
    { left. cbn [fst snd]. now split. }
    destruct Hsched as [Heq|(buffer & Heq)]; injection Heq as -> ->;
      destruct (interrupted message); cbn [fst snd interrupt schedule];
      rewrite ?startedIn_app, ?startedIn_stops, ?Hcreated; cbn; auto.
  - left. now split.
  - left. cbn [stopConversation fst snd]. now rewrite startedIn_stops.
Qed.

(** The active set after a step, exactly: what was in it or was started by
    the step, except what the event clears. *)
Lemma step_active (st : State) (ev : Event) (source : nat) :
  source ∈ audioSourcesRef (step st ev).1
  ↔ (source ∈ audioSourcesRef st ∨ source ∈ startedIn (step st ev).2)
    ∧ ¬ clears st ev source.
Proof.
  destruct ev as [now message|ended|]; cbn [ConversationalAI.step Vocabulary.clears].
  - destruct (onmessage_shape decodeAudioData now message st)
      as [(st0 & e & Hrun & Hseq)|(st4 & st5 & started & Hseq & Hsched & Hrun)];
      rewrite Hrun; injection Hseq as _ Hset _.
    { cbn [fst snd]. rewrite Hset. cbn. rewrite elem_of_nil.
      split; [intros Hin; split; [now left|]; now intros [_ [=]]|].
      now intros [[Hin|[]] _]. }
    destruct Hsched as [Heq|(buffer & Heq)]; injection Heq as -> ->;
      destruct (interrupted message); cbn [fst snd interrupt schedule];
      rewrite ?startedIn_app, ?startedIn_stops; cbn;
      rewrite ?Hset, ?elem_of_nil, ?elem_of_union, ?list_elem_of_singleton,
        ?elem_of_singleton.
    + split; [intros []%not_elem_of_empty|intros [_ Hno]; now destruct Hno].
    + split; [intros Hin; split; [now left|]; now intros [[=] _]|].
      now intros [[Hin|[]] _].
    + split; [intros []%not_elem_of_empty|intros [_ Hno]; now destruct Hno].
    + split; [intros [Hin|Hin]; (split; [auto|now intros [[=] _]])|].
      intros [[Hin|Hin] _]; auto.
  - cbn. rewrite elem_of_difference, elem_of_singleton, elem_of_nil.
    split; [intros [Hin Hne]; split; [now left|congruence]|].
    intros [[Hin|[]] Hne]. split; [exact Hin|congruence].
  - cbn [stopConversation fst snd]. rewrite startedIn_stops. cbn.
    split; [intros []%not_elem_of_empty|intros [_ Hno]; now destruct Hno].
Qed.

(** Whether an event clears a source can be told. *)
Lemma clears_dec (st : State) (ev : Event) (source : nat) :
  clears st ev source ∨ ¬ clears st ev source.
Proof.
  destruct ev as [now message|ended|]; cbn [Vocabulary.clears].
  - destruct (interrupted message); [|right; now intros [[=] _]].
    destruct (onmessage now message st).2 as [e|]; [right; now intros [_ [=]]|].
    now left.
  - destruct (decide (ended = source)); [now left|now right].
  - now left.
Qed.

(** A stop or an interrupt calls [stop] on everything it takes out. *)
Lemma step_stops (st : State) (ev : Event) (source : nat) :
  causeOf ev ≠ Completion →
  source ∈ audioSourcesRef st ∨ source ∈ startedIn (step st ev).2 →
  clears st ev source →
  SourceStop source ∈ (step st ev).2.
Proof.
  destruct ev as [now message|ended|];
    cbn [ConversationalAI.step Vocabulary.clears causeOf]; intros Hcause;
    [|contradiction|].
  - destruct (onmessage_shape decodeAudioData now message st)
      as [(st0 & e & Hrun & Hseq)|(st4 & st5 & started & Hseq & Hsched & Hrun)];
      rewrite Hrun; injection Hseq as _ Hset _.
    { cbn [fst snd]. now intros _ [_ [=]]. }
    intros Hin [Hflag _]. rewrite Hflag in *. cbn [fst snd] in *.
    apply elem_of_app. right. cbn [interrupt snd]. apply elem_of_stops.
    apply elem_of_elements.
    destruct Hsched as [Heq|(buffer & Heq)]; injection Heq as -> ->.
    + rewrite Hset. cbn [app interrupt snd] in Hin. rewrite startedIn_stops in Hin.
      destruct Hin as [Hin|Hin]; [exact Hin|now apply elem_of_nil in Hin].
    + cbn [schedule fst snd interrupt] in *.
      rewrite startedIn_app, startedIn_stops in Hin. cbn in Hin |- *.
      rewrite Hset, elem_of_union, elem_of_singleton.
      destruct Hin as [Hin|Hin%list_elem_of_singleton]; auto.
  - intros Hin _. cbn [stopConversation fst snd] in *.
    rewrite startedIn_stops in Hin. apply elem_of_stops, elem_of_elements.
    destruct Hin as [Hin|Hin]; [exact Hin|now apply elem_of_nil in Hin].
Qed.

Lemma removedAt_fst (st : State) (ev : Event) :
  (removedAt st ev).*1
  = elements ((audioSourcesRef st ∪ list_to_set (startedIn (step st ev).2))
              ∖ audioSourcesRef (step st ev).1).
Proof.
  unfold Vocabulary.removedAt. cbv zeta. rewrite <- list_fmap_compose.
  apply list_fmap_id.
Qed.

(** What a step logs: the sources that were active or were started by it,
    and that the event clears. *)
Lemma removedAt_spec (st : State) (ev : Event) (source : nat) (cause : Cause) :
  (source, cause) ∈ removedAt st ev
  ↔ cause = causeOf ev
    ∧ (source ∈ audioSourcesRef st ∨ source ∈ startedIn (step st ev).2)
    ∧ clears st ev source.
Proof.
  unfold Vocabulary.removedAt. cbv zeta. rewrite list_elem_of_fmap.
  split.
  - intros (h & [= -> ->] & Hin). split; [reflexivity|].
    apply elem_of_elements, elem_of_difference in Hin as [Hwas Hout].
    rewrite elem_of_union, elem_of_list_to_set in Hwas. split; [exact Hwas|].
    destruct (clears_dec st ev h) as [Hc|Hc]; [exact Hc|].
    exfalso. apply Hout. now apply step_active.
  - intros (-> & Hwas & Hc). exists source. split; [reflexivity|].
    apply elem_of_elements, elem_of_difference.
    rewrite elem_of_union, elem_of_list_to_set. split; [exact Hwas|].
    intros Hin%step_active. now destruct Hin.
Qed.

(** The account of a run: no source is logged twice, and the log holds
    exactly the sources that were in the set at the start or were started
    during the run, and that are not in the set at the end. *)
Lemma removalLog_account (st : State) (evs : list Event) :
  allCreated st →
  NoDup (removalLog st evs).*1
  ∧ (created st ≤ created (run st evs).1)%nat
  ∧ (∀ source, source ∈ startedIn (run st evs).2 →
       (created st ≤ source < created (run st evs).1)%nat)
  ∧ (∀ source, source ∈ audioSourcesRef (run st evs).1 →
       source ∈ audioSourcesRef st ∨ source ∈ startedIn (run st evs).2)
  ∧ (∀ source, source ∈ (removalLog st evs).*1 ↔
       (source ∈ audioSourcesRef st ∨ source ∈ startedIn (run st evs).2)
       ∧ source ∉ audioSourcesRef (run st evs).1).
Proof.
  revert st. induction evs as [|ev evs IH]; intros st Hall.
  - cbn [Vocabulary.removalLog ConversationalAI.run fst snd fmap list_fmap].
    cbn. split; [constructor|]. split; [lia|].
    split; [now intros source Hin%elem_of_nil|]. split; [now left|].
    intros source. rewrite elem_of_nil. split; [contradiction|].
    intros [[Hin|Hin] Hout]; contradiction.
  - rewrite run_cons, run_effects_cons. cbn [Vocabulary.removalLog].
    rewrite fmap_app, removedAt_fst.
    pose proof (step_allCreated st ev Hall) as Hall1.
    pose proof (step_active st ev) as Hactive.
    assert (Hstarted : ∀ source, source ∈ startedIn (step st ev).2 →
              (created st ≤ source < created (step st ev).1)%nat).
    { intros source Hin.
      destruct (step_started st ev) as [[Hs Hc]|[Hs Hc]]; rewrite Hs in Hin.
      - now apply elem_of_nil in Hin.
      - apply list_elem_of_singleton in Hin. lia. }
    destruct (step_sources st ev) as [Hle _].
    set (st1 := (step st ev).1) in *. set (effects := (step st ev).2) in *.
    destruct (IH st1 Hall1) as (Hnodup & Hle1 & Hstarted1 & Hsub1 & Hlog).
    set (final := (run st1 evs).1) in *. set (trace := (run st1 evs).2) in *.
    assert (Hold : ∀ source,
              source ∈ audioSourcesRef st ∨ source ∈ startedIn effects →
              (source < created st1)%nat).
    { intros source [Hin|Hin]; [specialize (Hall source Hin); lia|].
      apply Hstarted in Hin. lia. }
    assert (Hremoved : ∀ source,
              source ∈ elements ((audioSourcesRef st ∪ list_to_set (startedIn effects))
                                 ∖ audioSourcesRef st1)
              ↔ (source ∈ audioSourcesRef st ∨ source ∈ startedIn effects)
                ∧ source ∉ audioSourcesRef st1).
    { intros source.
      now rewrite elem_of_elements, elem_of_difference, elem_of_union,
        elem_of_list_to_set. }
    split; [|split; [lia|split; [|split]]].
    + apply NoDup_app. split; [apply NoDup_elements|]. split; [|exact Hnodup].
      intros source [Hwas Hout]%Hremoved [Hin _]%Hlog.
      destruct Hin as [Hin|Hin]; [contradiction|].
      apply Hstarted1 in Hin. apply Hold in Hwas. lia.
    + intros source. rewrite startedIn_app, elem_of_app.
      intros [Hin|Hin]; [apply Hstarted in Hin|apply Hstarted1 in Hin]; lia.
    + intros source Hin. rewrite startedIn_app, elem_of_app.
      destruct (Hsub1 source Hin) as [Hin1|Hnew]; [|auto].
      apply Hactive in Hin1 as [[Hin0|Hnew] _]; auto.
    + intros source.
      rewrite elem_of_app, Hremoved, Hlog, startedIn_app, elem_of_app.
      split.
      * intros [[Hwas Hout]|[Hwas Hout]].
        -- split; [tauto|]. intros Hin.
           destruct (Hsub1 source Hin) as [Hin1|Hnew]; [contradiction|].
           apply Hstarted1 in Hnew. apply Hold in Hwas. lia.
        -- split; [|exact Hout].
           destruct Hwas as [Hin1|Hnew]; [|auto].
           apply Hactive in Hin1 as [[Hin0|Hnew] _]; auto.
      * intros [Hwas Hout].
        destruct (decide (source ∈ audioSourcesRef st1)) as [Hin1|Hout1].
        { right. split; [now left|exact Hout]. }
        destruct Hwas as [Hin0|[Hnew|Hnew]].
        -- left. split; [now left|exact Hout1].
        -- left. split; [now right|exact Hout1].
        -- right. split; [now right|exact Hout].
Qed.

End Bookkeeping.

(** C6. Along every run of arrivals, completions, interrupts and stops,
    from a state in which every active source has been created:
    - no source is logged as removed twice, so none is removed both by its
      completion and by an interrupt or a stop;
    - the active set at the end is exactly what was in it at the start or
      was started during the run, less what the log holds: a source that was
      added stays in the set until it is removed, and does not come back;
    - every entry of the log is the work of an event of the run that clears
      the source, on a source that was then active or had just been started:
      the [ended] event of that very source, a message flagged as
      interrupted that is handled to its end, or the stop of the session,
      and in the last two cases [stop] is called on the source in that step;
    - every such event does remove the sources that are then active: they
      are logged with the kind of the event;
    - whatever an event clears is not in the set right after it. *)
Theorem each_source_removed_once
    (decodeAudioData : jsstring → Error + AudioBuffer) (st : State)
    (evs : list Event) (Hcreated : allCreated st) :
  let final := (run decodeAudioData st evs).1 in
  let trace := (run decodeAudioData st evs).2 in
  let log := removalLog decodeAudioData st evs in
  let at_ (before : list Event) := (run decodeAudioData st before).1 in
  NoDup log.*1
  ∧ (∀ source cause cause',
       (source, cause) ∈ log → (source, cause') ∈ log → cause = cause')
  ∧ (∀ source, source ∈ audioSourcesRef final ↔
       (source ∈ audioSourcesRef st ∨ source ∈ startedIn trace)
       ∧ source ∉ log.*1)
  ∧ (∀ source cause, (source, cause) ∈ log →
       ∃ before ev after,
         evs = before ++ ev :: after
         ∧ cause = causeOf ev
         ∧ (source ∈ audioSourcesRef (at_ before)
            ∨ source ∈ startedIn (step decodeAudioData (at_ before) ev).2)
         ∧ clears decodeAudioData (at_ before) ev source
         ∧ (cause ≠ Completion →
            SourceStop source ∈ (step decodeAudioData (at_ before) ev).2))
  ∧ (∀ before ev after source,
       evs = before ++ ev :: after →
       source ∈ audioSourcesRef (at_ before)
       ∨ source ∈ startedIn (step decodeAudioData (at_ before) ev).2 →
       clears decodeAudioData (at_ before) ev source →
       (source, causeOf ev) ∈ log ∧ source ∉ audioSourcesRef final)
  ∧ (∀ before ev after source,
       evs = before ++ ev :: after →
       clears decodeAudioData (at_ before) ev source →
       source ∉ audioSourcesRef (at_ (before ++ [ev])))
  ∧ (∀ source, (source < created st)%nat → source ∉ audioSourcesRef st →
       source ∉ audioSourcesRef final).
Proof.
  intros final trace log at_. subst final trace log at_. cbv beta.
  destruct (removalLog_account decodeAudioData st evs Hcreated)
    as (Hnodup & Hle & Hstarted & Hsub & Hlog).
  assert (Hcause : ∀ st0 evs0 source cause,
            (source, cause) ∈ removalLog decodeAudioData st0 evs0 →
            ∃ before ev after,
              evs0 = before ++ ev :: after
              ∧ (source, cause)
                ∈ removedAt decodeAudioData (run decodeAudioData st0 before).1 ev).
  { intros st0 evs0. revert st0.
    induction evs0 as [|ev evs0 IH]; intros st0 source cause Hin.
    - now apply elem_of_nil in Hin.
    - cbn [removalLog] in Hin. apply elem_of_app in Hin as [Hin|Hin].
      + now exists [], ev, evs0.
      + apply IH in Hin as (before & ev' & after & -> & Hin).
        exists (ev :: before), ev', after. split; [reflexivity|].
        now rewrite run_cons. }
  assert (Hlogged : ∀ before ev after source,
            evs = before ++ ev :: after →
            source ∈ audioSourcesRef (run decodeAudioData st before).1
            ∨ source ∈ startedIn (step decodeAudioData
                                    (run decodeAudioData st before).1 ev).2 →
            clears decodeAudioData (run decodeAudioData st before).1 ev source →
            (source, causeOf ev) ∈ removalLog decodeAudioData st evs).
  { intros before ev after source -> Hwas Hc.
    rewrite removalLog_app. apply elem_of_app. right.
    cbn [removalLog]. apply elem_of_app. left.
    apply removedAt_spec. now repeat split. }
  split; [exact Hnodup|].
  split; [intros source cause cause'; now apply NoDup_fst_functional|].
  split; [|split; [|split; [|split]]].
  - intros source. split.
    + intros Hin. split; [now apply Hsub|]. intros Hin'%Hlog. now destruct Hin'.
    + intros [Hwas Hout].
      destruct (decide (source ∈ audioSourcesRef (run decodeAudioData st evs).1))
        as [Hin|Hno]; [exact Hin|].
      exfalso. apply Hout, Hlog. now split.
  - intros source cause Hin.
    apply Hcause in Hin as (before & ev & after & -> & Hin).
    apply removedAt_spec in Hin as (-> & Hwas & Hc).
    exists before, ev, after. split; [reflexivity|]. split; [reflexivity|].
    split; [exact Hwas|]. split; [exact Hc|].
    intros Hne. now apply step_stops.
  - intros before ev after source Hevs Hwas Hc.
    pose proof (Hlogged before ev after source Hevs Hwas Hc) as Hin.
    split; [exact Hin|].
    assert (Hfst : source ∈ (removalLog decodeAudioData st evs).*1).
    { apply list_elem_of_fmap. now exists (source, causeOf ev). }
    apply Hlog in Hfst. now destruct Hfst.
  - intros before ev after source _ Hc.
    rewrite run_app. cbn [ConversationalAI.run].
    intros Hin.
    assert (Hin' : source ∈ audioSourcesRef
                     (step decodeAudioData (run decodeAudioData st before).1 ev).1).
    { now destruct (step decodeAudioData (run decodeAudioData st before).1 ev). }
    apply step_active in Hin'. now destruct Hin'.
  - intros source Hlt Hout Hin.
    destruct (Hsub source Hin) as [Hold|Hnew]; [contradiction|].
    apply Hstarted in Hnew. lia.
Qed.

Lemma each_source_removed_once_witness :
  removalLog sampleDecoder (startConversation mounted)
    [Message 0 (audioChunk (js "A")); Message 0 (audioChunk (js "B")); Ended 0;
     Message 0 interruptSignal; Ended 1; Message 0 (audioChunk (js "A")); Stop]
  = [(0%nat, Completion); (1%nat, Interruption); (2%nat, SessionStop)]
  ∧ NoDup (removalLog sampleDecoder (startConversation mounted)
             [Message 0 (audioChunk (js "A")); Message 0 (audioChunk (js "B"));
              Ended 0; Message 0 interruptSignal; Ended 1;
              Message 0 (audioChunk (js "A")); Stop]).*1.
Proof.
  split; [vm_compute; reflexivity|].
  apply (each_source_removed_once sampleDecoder (startConversation mounted)).
  intros source Hin. now apply not_elem_of_empty in Hin.
Defined.

End SequencerSpec.


(* ===================================================================== *)
(** * More on the lookup and on the default texts *)
(* ===================================================================== *)

Module LookupSpec.
Import LanguageContext DefaultText Samples.

(** X1. The lookup answers [undefined] exactly when the English table has
    no entry for the key and the entry of the active language is missing or
    the empty string; every key of the English table renders in both
    languages. *)
Theorem t_undefined_only_without_english (translations : Table) (language : Language)
    (key : string) (args : list Arg) :
  t translations language key args = None
  ↔ entry_truthy (translations language !! key) = false ∧ translations En !! key = None.
Proof.
  unfold t, entry_or.
  destruct (translations language !! key) as [[s|f]|] eqn:Hactive; cbn.
  - destruct (truthy s) eqn:Hs; cbn.
    + split; [discriminate|]. intros [H _]. discriminate H.
    + destruct (translations En !! key) as [[s'|f']|]; cbn;
        (split; [try discriminate; now split|]); intros [_ H]; try discriminate; reflexivity.
  - split; [discriminate|]. intros [H _]. discriminate H.
  - destruct (translations En !! key) as [[s'|f']|]; cbn;
      (split; [try discriminate; now split|]); intros [_ H]; try discriminate; reflexivity.
Qed.

(** X2. Under tables that hold a string for the key in both languages, the
    effect that runs on mount and on every change of language replaces a
    cell that is empty or holds one of the two defaults by the message of
    the active language, which is again one of the two defaults, so the cell
    keeps following the language; a cell that holds anything else is left
    as the user wrote it. *)
Theorem default_text_follows_language (key : string) (translations : Table)
    (language : Language) (value english arabic : jsstring)
    (Henglish : translations En !! key = Some (EString english))
    (Harabic : translations Ar !! key = Some (EString arabic)) :
  (value = [] ∨ value = english ∨ value = arabic →
     ∃ value', defaultTextEffect key translations language value = Some value'
               ∧ Some value' = t translations language key []
               ∧ (value' = english ∨ value' = arabic))
  ∧ (value ≠ [] → value ≠ english → value ≠ arabic →
     defaultTextEffect key translations language value = Some value).
Proof.
  unfold defaultTextEffect. rewrite Henglish, Harabic. cbn [sameAsEntry].
  assert (Ht : ∃ value', t translations language key [] = Some value'
                         ∧ (value' = english ∨ value' = arabic)).
  { unfold t, entry_or. destruct language; rewrite ?Henglish, ?Harabic; cbn.
    - destruct (truthy english); cbn; eexists; split; try reflexivity; now left.
    - destruct (truthy arabic); cbn; eexists; split; try reflexivity;
        [now right|now left]. }
  destruct Ht as (value' & Ht & Hwhich). split.
  - intros Hdefault. exists value'. rewrite Ht.
    assert (Hcond : negb (truthy value) || bool_decide (value = english)
                    || bool_decide (value = arabic) = true).
    { destruct Hdefault as [-> | [-> | ->]].
      - reflexivity.
      - rewrite bool_decide_eq_true_2 by reflexivity. now rewrite orb_true_r.
      - rewrite (bool_decide_eq_true_2 (arabic = arabic)) by reflexivity.
        now rewrite orb_true_r. }
    rewrite Hcond. now repeat split.
  - intros Hempty Hen Har.
    rewrite (TranscriptSpec.truthy_nonempty value Hempty).
    now rewrite !bool_decide_eq_false_2.
Qed.

Lemma default_text_follows_language_witness :
  promptEffect promptTable Ar [] = Some [0x635; 0x641]%N
  ∧ promptEffect promptTable En [0x635; 0x641]%N = Some (js "Describe this video.")
  ∧ promptEffect promptTable Ar (js "Count the cars.") = Some (js "Count the cars.").
Proof.
  pose proof (λ language value,
    default_text_follows_language "video_default_prompt" promptTable language value
      (js "Describe this video.") [0x635; 0x641]%N eq_refl eq_refl) as H.
  split; [|split].
  - destruct (proj1 (H Ar [])) as (value' & Heffect & Ht & _); [now left|].
    unfold promptEffect. rewrite Heffect, Ht. vm_compute. reflexivity.
  - destruct (proj1 (H En [0x635; 0x641]%N)) as (value' & Heffect & Ht & _);
      [right; now right|].
    unfold promptEffect. rewrite Heffect, Ht. vm_compute. reflexivity.
  - apply (proj2 (H Ar (js "Count the cars."))); discriminate.
Defined.

End LookupSpec.


(* ===================================================================== *)
(** * More on the frame sampler *)
(* ===================================================================== *)

Module SamplerSpec.
Import LanguageContext VideoAnalysis Vocabulary Scenario Readings.

Section Positions.
Local Open Scope Q_scope.

Lemma onSeeked_blobs (Frame : Type) (canvas : Canvas Frame) (video : VideoElement)
    (fuel : nat) :
  context2d Frame canvas = true →
  ∀ (currentTime : Q) (positions : list Q),
    onSeeked Frame fuel video canvas currentTime (omap (toBlob Frame canvas) positions)
    = (omap (toBlob Frame canvas) : list Q → list Frame)
        <$> onSeeked Q fuel video (mkCanvas Q true Some) currentTime positions.
Proof.
  intros Hctx. induction fuel as [|fuel IH]; intros cur positions; [reflexivity|].
  rewrite !VideoAnalysisSpec.onSeeked_S. rewrite Hctx. cbn [context2d negb toBlob].
  cbv zeta.
  assert (Hnext : match toBlob Frame canvas cur with
                  | Some base64 => omap (toBlob Frame canvas) positions ++ [base64]
                  | None => omap (toBlob Frame canvas) positions
                  end = omap (toBlob Frame canvas) (positions ++ [cur])).
  { rewrite omap_app. cbn. destruct (toBlob Frame canvas cur); [reflexivity|].
    now rewrite app_nil_r. }
  rewrite Hnext. destruct (Qlt_bool cur (duration video)); [apply IH|reflexivity].
Qed.

Lemma ascending_cons (p : Q) (positions : list Q) :
  Forall (λ q, p < q) positions → ascending positions → ascending (p :: positions).
Proof.
  destruct positions as [|q rest]; [easy|]. intros Hall Hasc.
  apply Forall_cons in Hall as [Hq _]. now split.
Qed.

Lemma onSeeked_positions (d : Q) (k : nat) :
  ∀ cur acc more,
    0 <= cur → cur <= d →
    inject_Z (Z.of_nat k) - 1 < d - cur → d - cur <= inject_Z (Z.of_nat k) →
    ∃ tail p,
      onSeeked Q (S (k + more)) (htmlVideo d) (mkCanvas Q true Some) cur acc
      = Some (acc ++ cur :: tail)
      ∧ length tail = k
      ∧ Forall (λ q, cur < q ∧ q <= d) tail
      ∧ ascending (cur :: tail)
      ∧ last (cur :: tail) = Some p ∧ p == d.
Proof.
  induction k as [|k IH]; intros cur acc more Hpos Hle Hlow Hhigh;
    cbn [Nat.add]; rewrite VideoAnalysisSpec.onSeeked_S;
    cbn [context2d negb toBlob duration htmlVideo]; cbv zeta.
  - change (inject_Z (Z.of_nat 0)) with 0 in *.
    rewrite VideoAnalysisSpec.Qlt_bool_false by lra.
    exists [], cur. repeat split; try easy. lra.
  - rewrite Nat2Z.inj_succ, <- Z.add_1_r, inject_Z_plus in Hlow, Hhigh.
    change (inject_Z 1) with 1 in *.
    assert (Hk : 0 <= inject_Z (Z.of_nat k)).
    { change 0 with (inject_Z 0). rewrite <- Zle_Qle. lia. }
    assert (Hlt : Qlt_bool cur d = true).
    { unfold Qlt_bool. apply negb_true_iff. destruct (Qle_bool d cur) eqn:E; [|easy].
      apply Qle_bool_iff in E. lra. }
    rewrite Hlt.
    pose (next := Qmax 0 (Qmin (cur + 1) d)).
    change (seekTo (htmlVideo d) (cur + 1)) with next.
    assert (Hnext : (next == cur + 1 ∧ cur + 1 <= d) ∨ (next == d ∧ d <= cur + 1)).
    { subst next. destruct (Q.min_spec (cur + 1) d) as [[Hc Hmin]|[Hc Hmin]];
        rewrite Hmin; [left|right]; (split; [apply Q.max_r|]); lra. }
    assert (Hnext_pos : 0 <= next) by apply Q.le_max_l.
    assert (Hbounds : cur < next ∧ next <= d
                      ∧ inject_Z (Z.of_nat k) - 1 < d - next
                      ∧ d - next <= inject_Z (Z.of_nat k)).
    { destruct Hnext as [[Hn Hc]|[Hn Hc]]; rewrite Hn; repeat split; try lra. }
    destruct Hbounds as (Hadv & Hnle & Hnlow & Hnhigh).
    destruct (IH next (acc ++ [cur]) more Hnext_pos Hnle Hnlow Hnhigh)
      as (tail & p & Hrun & Hlen & Hall & Hasc & Hlast & Hp).
    exists (next :: tail), p. rewrite Hrun, <- app_assoc. cbn [app length].
    split; [reflexivity|]. split; [now rewrite Hlen|].
    split; [|split; [|split; [exact Hlast|exact Hp]]].
    + constructor; [split; lra|]. eapply Forall_impl; [exact Hall|].
      cbn beta. intros q [Hq Hqd]. split; lra.
    + split; [exact Hadv|exact Hasc].
Qed.

(** X5. With a 2d context, the frames that come back are the blobs of the
    positions the sampler visits, in the order of the visits; a position
    whose picture gives a null blob is skipped and the sampling goes on. *)
Theorem frames_are_blobs_of_visited_positions (Frame : Type) (fuel : nat)
    (video : VideoElement) (canvas : Canvas Frame)
    (Hcontext : context2d Frame canvas = true) :
  extractFrames Frame fuel video canvas
  = (omap (toBlob Frame canvas) : list Q → list Frame) <$> visited fuel video.
Proof.
  unfold visited, extractFrames.
  exact (onSeeked_blobs Frame canvas video fuel Hcontext (seekTo video 0) []).
Qed.

(** X4. On a media element that clamps its seeks, for every duration that
    is not negative, the sampler visits one position per started second and
    at last the end of the video: the number of positions is the duration
    rounded up plus one, they increase strictly from 0 to the duration and
    all lie within the video; that many listener runs suffice. *)
Theorem sampler_visits_every_second_and_the_end (d : Q) (more : nat) (Hd : 0 <= d) :
  ∃ positions first final,
    visited (S (Z.to_nat (Qceiling d)) + more) (htmlVideo d) = Some positions
    ∧ length positions = S (Z.to_nat (Qceiling d))
    ∧ ascending positions
    ∧ Forall (λ p, 0 <= p ∧ p <= d) positions
    ∧ head positions = Some first ∧ first == 0
    ∧ last positions = Some final ∧ final == d.
Proof.
  unfold visited, extractFrames. cbn [seekTo htmlVideo].
  set (start := Qmax 0 (Qmin 0 d)).
  assert (Hstart : start == 0).
  { subst start. rewrite (Q.min_l 0 d Hd). now apply Q.max_l. }
  clearbody start.
  assert (Hceil : (0 <= Qceiling d)%Z).
  { change 0%Z with (Qceiling 0). now apply Qceiling_resp_le. }
  pose proof (Qle_ceiling d) as Hup. pose proof (Qceiling_lt d) as Hdown.
  unfold Z.sub in Hdown. rewrite inject_Z_plus, inject_Z_opp in Hdown.
  change (inject_Z 1) with 1 in Hdown.
  destruct (onSeeked_positions d (Z.to_nat (Qceiling d)) start [] more)
    as (tail & final & Hrun & Hlen & Hall & Hasc & Hlast & Hfinal).
  - lra.
  - lra.
  - rewrite Z2Nat.id by exact Hceil. lra.
  - rewrite Z2Nat.id by exact Hceil. lra.
  - exists (start :: tail), start, final. cbn [Nat.add]. rewrite Hrun.
    split; [reflexivity|]. split; [cbn; now rewrite Hlen|].
    split; [exact Hasc|]. split; [|now repeat split].
    constructor; [split; lra|]. eapply Forall_impl; [exact Hall|].
    cbn beta. intros q [Hq Hqd]. split; lra.
Qed.

Lemma sampler_visits_every_second_and_the_end_witness :
  ∃ positions first final,
    visited 5 (htmlVideo (34 # 10)) = Some positions
    ∧ length positions = 5%nat
    ∧ ascending positions
    ∧ Forall (λ p, 0 <= p ∧ p <= 34 # 10) positions
    ∧ head positions = Some first ∧ first == 0
    ∧ last positions = Some final ∧ final == 34 # 10.
Proof.
  apply (sampler_visits_every_second_and_the_end (34 # 10) 0). discriminate.
Defined.

Lemma frames_are_blobs_of_visited_positions_witness :
  extractFrames Q 5 (htmlVideo (34 # 10))
    (mkCanvas Q true (λ p, if Qle_bool 2 p then Some p else None))
  = Some [2; 3; 34 # 10].
Proof.
  rewrite (frames_are_blobs_of_visited_positions Q 5 (htmlVideo (34 # 10))
             (mkCanvas Q true (λ p, if Qle_bool 2 p then Some p else None)) eq_refl).
  vm_compute. reflexivity.
Defined.

End Positions.

End SamplerSpec.


(* ===================================================================== *)
(** * More on the analysis and synthesis flows *)
(* ===================================================================== *)

Module AnalysisFlowSpec.
Import LanguageContext VideoAnalysis Vocabulary Scenario.

Section Flow.
Variable Frame : Type.
Variable translations : Table.
Variable language : Language.
Variable generateContent : jsstring → list Frame → Error + jsstring.
Local Abbreviation t := (t translations language).
Local Abbreviation handleAnalyze := (handleAnalyze Frame translations language generateContent).

Lemma catchFinally_loaded r :
  isLoading (catchFinally Frame translations language r).1 = false
  ∧ progress (catchFinally Frame translations language r).1 = Some [].
Proof. destruct r as [[st effects] [e|]]; now split. Qed.

End Flow.

(** X6. On a valid state the loading flag ends switched off exactly when
    the element fired [loadeddata] and the extraction resolved, whatever the
    frames and whatever the remote model answered, and then the progress
    text is cleared; otherwise the component stays loading, with no effect
    performed and no error shown. *)
Theorem analysis_stops_loading_when_extraction_resolves (Frame : Type)
    (translations : Table) (language : Language)
    (generateContent : jsstring → list Frame → Error + jsstring)
    (loadeddata : bool) (fuel : nat) (video : VideoElement) (canvas : Canvas Frame)
    (st : State) (Hvalid : invalid st = false) :
  let result := handleAnalyze Frame translations language generateContent loadeddata
                  fuel video canvas st in
  (isLoading result.1 = false
   ↔ loadeddata = true ∧ is_Some (extractFrames Frame fuel video canvas))
  ∧ (isLoading result.1 = false → progress result.1 = Some [])
  ∧ (isLoading result.1 = true → result.2 = [] ∧ error result.1 = None).
Proof.
  intros result. subst result. unfold handleAnalyze. rewrite Hvalid.
  destruct loadeddata.
  - unfold onloadeddata.
    destruct (extractFrames Frame fuel video canvas) as [frames|].
    + destruct (catchFinally_loaded Frame translations language
                  (tryAnalyze Frame translations language generateContent
                     (setProgress (LanguageContext.t translations language
                                     "video_progress_extracting" [])
                        (setProgress (LanguageContext.t translations language
                                        "video_progress_preparing" [])
                           (setAnalysis [] (setError None (setIsLoading true st)))))
                     frames)) as [Hl Hp].
      rewrite Hl, Hp. repeat split; try easy; try (now exists frames).
    + cbn. repeat split; try easy; try (intros [_ [x Hx]]; discriminate Hx).
  - cbn. repeat split; try easy; try (intros [H _]; discriminate H).
Qed.

Lemma analysis_stops_loading_when_extraction_resolves_witness :
  isLoading (handleAnalyze Q sampleTable Ar (λ _ _, inr (js "A cat.")) true 8
               (htmlVideo (34 # 10)) everyFrame readyToAnalyze).1 = false
  ∧ isLoading (handleAnalyze Q sampleTable Ar (λ _ _, inr (js "A cat.")) true 3
                 (htmlVideo (34 # 10)) everyFrame readyToAnalyze).1 = true.
Proof.
  split.
  - apply (analysis_stops_loading_when_extraction_resolves Q sampleTable Ar
             (λ _ _, inr (js "A cat.")) true 8 (htmlVideo (34 # 10)) everyFrame
             readyToAnalyze eq_refl).
    split; [reflexivity|]. now eexists.
  - destruct (isLoading _) eqn:E; [reflexivity|].
    apply (analysis_stops_loading_when_extraction_resolves Q sampleTable Ar
             (λ _ _, inr (js "A cat.")) true 3 (htmlVideo (34 # 10)) everyFrame
             readyToAnalyze eq_refl) in E as [_ [frames Hframes]].
    discriminate Hframes.
Defined.

(** X7. On a valid state, when the extraction gives at least one frame, the
    flow sends exactly one request, to the model [gemini-2.5-pro], with the
    prompt as typed and all the frames in their order. An answer becomes the
    analysis and leaves no error; a failure leaves the analysis empty (the
    previous one was cleared when the flow began), sets the error to the
    message of the exception or else the message for unknown errors, and
    logs the exception. *)
Theorem analysis_sends_one_request_and_reports (Frame : Type)
    (translations : Table) (language : Language)
    (generateContent : jsstring → list Frame → Error + jsstring)
    (fuel : nat) (video : VideoElement) (canvas : Canvas Frame) (st : State)
    (frame : Frame) (frames : list Frame)
    (Hvalid : invalid st = false)
    (Hframes : extractFrames Frame fuel video canvas = Some (frame :: frames)) :
  let result := handleAnalyze Frame translations language generateContent true
                  fuel video canvas st in
  let request := GenerateContent Frame "gemini-2.5-pro" (prompt st) (frame :: frames) in
  filter (λ e, isRemoteCall Frame e = true) result.2 = [request]
  ∧ match generateContent (prompt st) (frame :: frames) with
    | inr text =>
        analysis result.1 = text ∧ error result.1 = None ∧ result.2 = [request]
    | inl e =>
        analysis result.1 = []
        ∧ error result.1
          = messageOr e (t translations language "video_error_unknown" [])
        ∧ result.2 = [request; ConsoleError Frame e]
    end.
Proof.
  intros result request. subst result request.
  unfold handleAnalyze, onloadeddata. rewrite Hvalid, Hframes.
  unfold tryAnalyze. cbn [length Nat.eqb prompt setProgress setAnalysis setError
                          setIsLoading].
  destruct (generateContent (prompt st) (frame :: frames)) as [e|text];
    cbn; now repeat split.
Qed.

Lemma analysis_sends_one_request_and_reports_witness :
  (handleAnalyze Q sampleTable Ar (λ _ _, inl (mkError (js "503"))) true 8
     (htmlVideo 1) everyFrame readyToAnalyze).2
  = [GenerateContent Q "gemini-2.5-pro" (js "Describe the video.") [0%Q; 1%Q];
     ConsoleError Q (mkError (js "503"))].
Proof.
  apply (analysis_sends_one_request_and_reports Q sampleTable Ar
           (λ _ _, inl (mkError (js "503"))) 8 (htmlVideo 1) everyFrame
           readyToAnalyze 0%Q [1%Q] eq_refl eq_refl).
Defined.

End AnalysisFlowSpec.

Module SpeechFlowSpec.
Import LanguageContext Utils TextToSpeech Vocabulary Scenario Samples.

(** X8. With a text that is not blank, the synthesis flow sends exactly one
    request and ends with the loading flag off. The buffer it leaves is the
    freshly decoded one when the model answered with a payload that decodes,
    and no buffer at all in every other case (the call threw, there was no
    payload, the decoding threw): audio from an earlier generation never
    survives a failed one. The error is empty on success and otherwise the
    message of the exception or else the message for unknown errors. *)
Theorem speech_generation_outcome (translations : Table) (language : Language)
    (generateContent : jsstring → string → Error + option jsstring)
    (decodeAudioData : jsstring → Error + AudioBuffer) (st : State)
    (Htext : ¬ blank (text st)) :
  let result := handleGenerateSpeech translations language generateContent
                  decodeAudioData st in
  let unknown := t translations language "tts_error_unknown" [] in
  isLoading result.1 = false
  ∧ filter (λ e, isRemoteCall e = true) result.2
    = [GenerateContent "gemini-2.5-flash-preview-tts" (text st) (selectedVoice st)]
  ∧ match generateContent (text st) (selectedVoice st) with
    | inl e => audioBuffer result.1 = None ∧ error result.1 = messageOr e unknown
    | inr payload =>
        if truthy_opt payload then
          match decodeAudioData (default [] payload) with
          | inl e => audioBuffer result.1 = None ∧ error result.1 = messageOr e unknown
          | inr buffer => audioBuffer result.1 = Some buffer ∧ error result.1 = None
          end
        else audioBuffer result.1 = None
             ∧ error result.1
               = messageOr (newError (t translations language "tts_error_no_audio" []))
                   unknown
    end.
Proof.
  intros result unknown. subst result unknown. unfold handleGenerateSpeech.
  destruct (trim (text st)) as [|c s] eqn:E.
  { exfalso. apply Htext. now apply JSSpec.trim_nil_blank. }
  cbn [truthy negb]. unfold stopPlayback.
  destruct (audioSource st); cbn [fst snd]; unfold trySpeech;
    cbn [text selectedVoice setAudioBuffer setError setIsLoading setIsPlaying
         setAudioSource audioContextOpen];
    destruct (generateContent (text st) (selectedVoice st)) as [e|payload];
    try (cbn; now repeat split);
    destruct (truthy_opt payload); try (cbn; now repeat split);
    destruct (audioContextOpen st);
    destruct (decodeAudioData (default [] payload)); cbn; now repeat split.
Qed.

Lemma speaking_not_blank : ¬ blank (text speaking).
Proof. intros H. apply Forall_cons in H as [H _]. discriminate H. Qed.

Lemma speech_generation_outcome_witness :
  audioBuffer (handleGenerateSpeech sampleTable Ar (λ _ _, inr None)
                 (λ _, inl (mkError (js "bad")))
                 (setAudioBuffer (Some oneMs) speaking)).1 = None.
Proof.
  apply (speech_generation_outcome sampleTable Ar (λ _ _, inr None)
           (λ _, inl (mkError (js "bad"))) (setAudioBuffer (Some oneMs) speaking)
           speaking_not_blank).
Defined.

(** X9. With a text that is not blank, a source that is playing is stopped
    before the request goes out, and nothing is stopped after it: the trace
    begins with the stop (when a source was set), then the request; the flow
    ends with no source set and the playing flag off. *)
Ltac no_stop_in_trace :=
  let H := fresh "H" in
  intros H;
  repeat (apply elem_of_cons in H as [H|H]; [discriminate H|]);
  now apply elem_of_nil in H.

Theorem generation_stops_playback_before_the_request (translations : Table)
    (language : Language)
    (generateContent : jsstring → string → Error + option jsstring)
    (decodeAudioData : jsstring → Error + AudioBuffer) (st : State)
    (Htext : ¬ blank (text st)) :
  let result := handleGenerateSpeech translations language generateContent
                  decodeAudioData st in
  let request := GenerateContent "gemini-2.5-flash-preview-tts" (text st)
                   (selectedVoice st) in
  (∃ rest, result.2 = (if audioSource st then [SourceStop] else []) ++ request :: rest
           ∧ SourceStop ∉ rest)
  ∧ isPlaying result.1 = false
  ∧ audioSource result.1 = false.
Proof.
  intros result request. subst result request. unfold handleGenerateSpeech.
  destruct (trim (text st)) as [|c s] eqn:E.
  { exfalso. apply Htext. now apply JSSpec.trim_nil_blank. }
  cbn [truthy negb]. unfold stopPlayback.
  destruct (audioSource st) eqn:Hsource; cbn [fst snd]; unfold trySpeech;
    cbn [text selectedVoice setAudioBuffer setError setIsLoading setIsPlaying
         setAudioSource audioContextOpen];
    destruct (generateContent (text st) (selectedVoice st)) as [e|payload];
    try (cbn; rewrite ?Hsource; split; [eexists; split; [reflexivity|no_stop_in_trace]|easy]);
    destruct (truthy_opt payload);
    try (cbn; rewrite ?Hsource; split; [eexists; split; [reflexivity|no_stop_in_trace]|easy]);
    destruct (audioContextOpen st);
    destruct (decodeAudioData (default [] payload)); cbn; rewrite ?Hsource;
    (split; [eexists; split; [reflexivity|no_stop_in_trace]|easy]).
Qed.

Lemma generation_stops_playback_before_the_request_witness :
  ∃ rest,
    (handleGenerateSpeech sampleTable Ar (λ _ _, inr (Some (js "A")))
       (λ _, inr oneMs) speaking).2
    = [SourceStop] ++ GenerateContent "gemini-2.5-flash-preview-tts" (js "Hello")
                        "Zephyr" :: rest
    ∧ SourceStop ∉ rest.
Proof.
  apply (generation_stops_playback_before_the_request sampleTable Ar
           (λ _ _, inr (Some (js "A"))) (λ _, inr oneMs) speaking
           speaking_not_blank).
Defined.

End SpeechFlowSpec.


(* ===================================================================== *)
(** * The transcript along a run *)
(* ===================================================================== *)

Module TranscriptRunSpec.
Import Utils ConversationalAI Vocabulary Scenario Readings Samples.

Lemma tracked_view (st : State) : tracked st ↔ trackedView (view st).
Proof. reflexivity. Qed.

Lemma assemble_tracked v fragment : trackedView v → trackedView (assemble v fragment).
Proof.
  destruct v as [lastAuthor ts], fragment as [who s]. intros Htr.
  unfold assemble. cbn [fst snd]. destruct (decide (lastAuthor = Some who)) as [->|Hne].
  - destruct (Htr who eq_refl) as (front & u & Hts & Hu). cbn [fst snd] in *.
    rewrite Hts, TranscriptSpec.appendToLast_snoc. cbn [default].
    intros who' [= <-]. now eexists front, _.
  - intros who' [= <-]. now eexists ts, _.
Qed.

(** A transcription block acts on the transcript cells as [assemble] does,
    and on nothing else but those cells. *)
Lemma onTranscription_view (who : Author) (fragment : option jsstring) (st : State) :
  tracked st →
  ∃ st', onTranscription who fragment st = inr (st', truthy_opt fragment)
    ∧ view st' = (if truthy_opt fragment
                  then assemble (view st) (who, default [] fragment)
                  else view st)
    ∧ transcriptions st' = transcriptions st
    ∧ sequencer st' = sequencer st
    ∧ outputAudioContextRef st' = outputAudioContextRef st.
Proof.
  intros Htr. unfold onTranscription, assemble, view. cbn [fst snd].
  destruct (truthy_opt fragment); [|now exists st].
  destruct (decide (lastAuthorRef st = Some who)) as [Heq|Hne].
  - destruct (Htr who Heq) as (front & u & Hts & Hu).
    rewrite Hts, TranscriptSpec.appendToLast_snoc. cbn [default].
    eexists. split; [reflexivity|]. now repeat split.
  - cbn [transcriptionsRef setLastAuthorRef setTranscriptionsRef].
    rewrite TranscriptSpec.appendToLast_snoc.
    eexists. split; [reflexivity|]. now repeat split.
Qed.

Section Session.
Variable decodeAudioData : jsstring → Error + AudioBuffer.
Local Abbreviation onmessage := (onmessage decodeAudioData).
Local Abbreviation step := (step decodeAudioData).
Local Abbreviation run := (run decodeAudioData).

(** The whole handler on the transcript cells, however it ends. *)
Lemma onmessage_view (now : Q) (message : LiveServerMessage) (st : State) :
  tracked st →
  view (onmessage now message st).1.1 = viewStep (view st) (Message now message)
  ∧ transcriptions (onmessage now message st).1.1
    = (if truthy_opt (inputTranscription message)
          || truthy_opt (outputTranscription message)
       then (viewStep (view st) (Message now message)).2
       else transcriptions st).
Proof.
  intros Htr. unfold ConversationalAI.onmessage.
  destruct (onTranscription_view User (inputTranscription message) st Htr)
    as (st1 & -> & Hv1 & Ht1 & _).
  assert (Htr1 : tracked st1).
  { apply tracked_view. rewrite Hv1. destruct (truthy_opt _); [|exact Htr].
    now apply assemble_tracked. }
  destruct (onTranscription_view Model (outputTranscription message) st1 Htr1)
    as (st2 & -> & Hv2 & Ht2 & _).
  assert (Hfold : view st2 = foldl assemble (view st) (fragmentsOf message)).
  { rewrite Hv2, Hv1. unfold fragmentsOf.
    now destruct (truthy_opt (inputTranscription message)),
                 (truthy_opt (outputTranscription message)). }
  cbn [viewStep]. rewrite <- Hfold.
  set (updated := truthy_opt (inputTranscription message)
                  || truthy_opt (outputTranscription message)).
  assert (Hends : ∀ st4 : State,
            view st4 = (if turnComplete message then None else lastAuthorRef st2,
                        transcriptionsRef st2) →
            transcriptions st4
            = (if updated then transcriptionsRef st2 else transcriptions st) →
            let r := (match
                 (if truthy_opt (inlineData message) && outputAudioContextRef st4
                  then match decodeAudioData (default [] (inlineData message)) with
                       | inl e => inl e
                       | inr audioBuffer => inr (schedule now audioBuffer st4)
                       end
                  else inr (st4, []))
               with
               | inl e => (st4, [], Some e)
               | inr (st5, started) =>
                   if interrupted message
                   then let '(st6, stopped) := interrupt st5 in
                        (st6, started ++ stopped, None)
                   else (st5, started, None)
               end) in
            view r.1.1 = (if turnComplete message then None else lastAuthorRef st2,
                          transcriptionsRef st2)
            ∧ transcriptions r.1.1
              = (if updated then transcriptionsRef st2 else transcriptions st)).
  { intros st4 Hv4 Ht4.
    destruct (truthy_opt (inlineData message) && outputAudioContextRef st4);
      [destruct (decodeAudioData _)|]; destruct (interrupted message);
      cbn; now split. }
  apply Hends.
  - unfold view. now destruct updated, (turnComplete message).
  - destruct updated, (turnComplete message); cbn; congruence.
Qed.

Lemma viewStep_tracked v ev : trackedView v → trackedView (viewStep v ev).
Proof.
  destruct ev as [now message| |]; [|easy..]. intros Htr. cbn [viewStep].
  assert (Hfold : trackedView (foldl assemble v (fragmentsOf message))).
  { revert v Htr. induction (fragmentsOf message) as [|f fs IH]; intros v Htr;
      [exact Htr|]. cbn [foldl]. apply IH. now apply assemble_tracked. }
  destruct (turnComplete message); [|exact Hfold]. intros who [=].
Qed.

Lemma step_view (st : State) (ev : Event) :
  tracked st →
  view (step st ev).1 = viewStep (view st) ev ∧ tracked (step st ev).1.
Proof.
  intros Htr.
  assert (Hview : view (step st ev).1 = viewStep (view st) ev).
  { destruct ev as [now message|source|]; [|reflexivity..].
    apply (onmessage_view now message st Htr). }
  split; [exact Hview|]. apply tracked_view. rewrite Hview.
  now apply viewStep_tracked.
Qed.

Lemma run_view (st : State) (evs : list Event) :
  tracked st →
  view (run st evs).1 = foldl viewStep (view st) evs ∧ tracked (run st evs).1.
Proof.
  revert st. induction evs as [|ev evs IH]; intros st Htr; [now split|].
  rewrite SequencerSpec.run_cons. cbn [foldl].
  destruct (step_view st ev Htr) as [<- Htr1]. now apply IH.
Qed.

(** The handler only ends by an exception of the decoder. *)
Lemma onmessage_thrown (now : Q) (message : LiveServerMessage) (st : State) (e : Error) :
  tracked st → (onmessage now message st).2 = Some e →
  truthy_opt (inlineData message) = true
  ∧ decodeAudioData (default [] (inlineData message)) = inl e.
Proof.
  intros Htr. unfold ConversationalAI.onmessage.
  destruct (onTranscription_view User (inputTranscription message) st Htr)
    as (st1 & -> & Hv1 & _).
  assert (Htr1 : tracked st1).
  { apply tracked_view. rewrite Hv1. destruct (truthy_opt _); [|exact Htr].
    now apply assemble_tracked. }
  destruct (onTranscription_view Model (outputTranscription message) st1 Htr1)
    as (st2 & -> & _).
  destruct (truthy_opt (inlineData message)); cbn [andb].
  - match goal with |- context [outputAudioContextRef ?s] =>
      destruct (outputAudioContextRef s) end.
    + destruct (decodeAudioData _) as [e'|buffer].
      * intros [= ->]. now split.
      * now destruct (interrupted message).
    + now destruct (interrupted message).
  - now destruct (interrupted message).
Qed.

End Session.

Lemma fragmentsOf_nonempty (message : LiveServerMessage) :
  Forall (λ f, f.2 ≠ []) (fragmentsOf message).
Proof.
  unfold fragmentsOf. apply Forall_app. split.
  - destruct (inputTranscription message) as [[|c s]|]; cbn; repeat constructor; easy.
  - destruct (outputTranscription message) as [[|c s]|]; cbn; repeat constructor; easy.
Qed.

Lemma fullText_snoc (ts : list Transcription) (u : Transcription) :
  fullText (ts ++ [u]) = fullText ts ++ text u.
Proof.
  unfold fullText. rewrite map_app, concat_app. cbn. now rewrite app_nil_r.
Qed.

Lemma assemble_fullText v fragment :
  trackedView v → fullText (assemble v fragment).2 = fullText v.2 ++ fragment.2.
Proof.
  destruct v as [lastAuthor ts], fragment as [who s]. intros Htr.
  unfold assemble. cbn [fst snd]. destruct (decide (lastAuthor = Some who)) as [->|Hne].
  - destruct (Htr who eq_refl) as (front & u & Hts & Hu). cbn [fst snd] in *.
    rewrite Hts, TranscriptSpec.appendToLast_snoc. simpl.
    rewrite !fullText_snoc. simpl. now rewrite <- app_assoc.
  - cbn [snd]. now rewrite fullText_snoc.
Qed.

Lemma foldl_assemble_tracked v fragments :
  trackedView v → trackedView (foldl assemble v fragments).
Proof.
  revert v. induction fragments as [|f fs IH]; intros v Htr; [exact Htr|].
  cbn [foldl]. apply IH. now apply assemble_tracked.
Qed.

Lemma foldl_assemble_fullText v fragments :
  trackedView v →
  fullText (foldl assemble v fragments).2 = fullText v.2 ++ concat (map snd fragments).
Proof.
  revert v. induction fragments as [|f fs IH]; intros v Htr; cbn [foldl map concat].
  - now rewrite app_nil_r.
  - rewrite IH by now apply assemble_tracked.
    rewrite assemble_fullText by exact Htr. now rewrite app_assoc.
Qed.

Lemma foldl_viewStep_fullText v evs :
  trackedView v →
  fullText (foldl viewStep v evs).2 = fullText v.2 ++ concat (map snd (spoken evs)).
Proof.
  revert v. induction evs as [|ev evs IH]; intros v Htr; cbn [foldl spoken].
  - cbn. now rewrite app_nil_r.
  - rewrite IH by now apply viewStep_tracked.
    destruct ev as [now message|source|]; [|reflexivity..].
    cbn [viewStep snd]. rewrite foldl_assemble_fullText by exact Htr.
    now rewrite map_app, concat_app, app_assoc.
Qed.

(** ** Utterances are never empty *)

Lemma assemble_worded v fragment :
  trackedView v → fragment.2 ≠ [] → worded v.2 → worded (assemble v fragment).2.
Proof.
  destruct v as [lastAuthor ts], fragment as [who s]. intros Htr Hs Hw.
  unfold assemble. cbn [fst snd] in *.
  destruct (decide (lastAuthor = Some who)) as [->|Hne].
  - destruct (Htr who eq_refl) as (front & u & Hts & Hu). cbn [fst snd] in *.
    rewrite Hts, TranscriptSpec.appendToLast_snoc. cbn [default snd].
    rewrite Hts in Hw. apply Forall_app in Hw as [Hfront _].
    apply Forall_app. split; [exact Hfront|]. constructor; [|constructor].
    cbn. intros [_ H]%app_eq_nil. contradiction.
  - cbn [snd]. apply Forall_app. split; [exact Hw|]. now repeat constructor.
Qed.

Lemma foldl_viewStep_worded v evs :
  trackedView v → worded v.2 → worded (foldl viewStep v evs).2.
Proof.
  revert v. induction evs as [|ev evs IH]; intros v Htr Hw; [exact Hw|].
  cbn [foldl]. apply IH; [now apply viewStep_tracked|].
  destruct ev as [now message|source|]; [|exact Hw..]. cbn [viewStep snd].
  pose proof (fragmentsOf_nonempty message) as Hne.
  revert v Htr Hw. induction Hne as [|f fs Hf _ IHf]; intros v Htr Hw; [exact Hw|].
  cbn [foldl]. apply IHf; [now apply assemble_tracked|now apply assemble_worded].
Qed.

(** ** Neighbouring utterances *)

Lemma alternating_authors (ts ts' : list Transcription) :
  map author ts = map author ts' → alternating ts → alternating ts'.
Proof.
  revert ts'. induction ts as [|u [|u' rest] IH]; intros [|v [|v' rest']] Hmap Halt;
    try discriminate; try exact I.
  injection Hmap as Hu Hu' Hrest. destruct Halt as [Hne Halt].
  split; [congruence|]. apply IH; [|exact Halt]. cbn. congruence.
Qed.

Lemma alternating_snoc (ts : list Transcription) (u : Transcription) :
  alternating ts → (∀ v, last ts = Some v → author v ≠ author u) →
  alternating (ts ++ [u]).
Proof.
  induction ts as [|v [|v' rest] IH]; intros Halt Hlast.
  - exact I.
  - split; [|exact I]. now apply Hlast.
  - destruct Halt as [Hne Halt]. split; [exact Hne|].
    apply IH; [exact Halt|]. intros w Hw. apply Hlast. exact Hw.
Qed.

Lemma assemble_turnView v fragment : turnView v → turnView (assemble v fragment).
Proof.
  intros (Htr & Halt & Hnone).
  split; [now apply assemble_tracked|].
  destruct v as [lastAuthor ts], fragment as [who s].
  unfold assemble. cbn [fst snd] in *.
  destruct (decide (lastAuthor = Some who)) as [->|Hne].
  - destruct (Htr who eq_refl) as (front & u & Hts & Hu). cbn [fst snd] in *.
    rewrite Hts, TranscriptSpec.appendToLast_snoc. unfold default, id. cbn [snd fst].
    split; [|discriminate]. rewrite Hts in Halt.
    apply (alternating_authors (front ++ [u])); [|exact Halt].
    rewrite !map_app. reflexivity.
  - cbn [fst snd]. split; [|discriminate].
    apply alternating_snoc; [exact Halt|]. intros v Hv. cbn [author].
    destruct lastAuthor as [other|].
    + destruct (Htr other eq_refl) as (front & u & Hts & Hu). cbn [snd] in Hts.
      rewrite Hts, last_snoc in Hv. injection Hv as <-. congruence.
    + rewrite (Hnone eq_refl) in Hv. discriminate Hv.
Qed.

Lemma foldl_viewStep_turnView v evs :
  Forall sameTurn evs → turnView v → turnView (foldl viewStep v evs).
Proof.
  intros Hall. revert v. induction Hall as [|ev evs Hev _ IH]; intros v Hv; [exact Hv|].
  cbn [foldl]. apply IH.
  destruct ev as [now message|source|]; [|exact Hv..]. cbn [viewStep].
  cbn in Hev. rewrite Hev.
  assert (Hfold : turnView (foldl assemble v (fragmentsOf message))).
  { clear Hev. revert v Hv. induction (fragmentsOf message) as [|f fs IHf];
      intros v Hv; [exact Hv|]. cbn [foldl]. apply IHf. now apply assemble_turnView. }
  destruct (foldl assemble v (fragmentsOf message)). exact Hfold.
Qed.

(** ** Growth *)

Lemma grows_refl (ts : list Transcription) : grows ts ts.
Proof.
  split; [lia|]. split; [reflexivity|]. intros u Hu. exists u.
  rewrite last_lookup in Hu. replace (length ts - 1)%nat with (pred (length ts)) by lia.
  now split.
Qed.

Lemma grows_trans (a b c : list Transcription) : grows a b → grows b c → grows a c.
Proof.
  intros (Hlab & Hfab & Hlastab) (Hlbc & Hfbc & Hlastbc).
  split; [lia|]. split.
  - intros i Hi. rewrite Hfbc by lia. now apply Hfab.
  - intros u Hu. destruct (Hlastab u Hu) as (u' & Hu' & Hauthor & Hprefix).
    assert (Hpos : (0 < length a)%nat).
    { destruct a; [discriminate Hu|cbn; lia]. }
    destruct (decide (S (length a - 1) < length b)%nat) as [Hlt|Hge].
    + exists u'. rewrite Hfbc by exact Hlt. now split.
    + assert (Hlen : length b = length a) by lia.
      assert (Hlastb : last b = Some u').
      { rewrite last_lookup. now replace (pred (length b)) with (length a - 1)%nat by lia. }
      destruct (Hlastbc u' Hlastb) as (u'' & Hu'' & Hauthor' & Hprefix').
      exists u''. rewrite Hlen in Hu''. split; [exact Hu''|].
      split; [congruence|]. now transitivity (text u').
Qed.

Lemma grows_snoc (ts : list Transcription) (u : Transcription) : grows ts (ts ++ [u]).
Proof.
  split; [rewrite length_app; lia|]. split.
  - intros i Hi. apply lookup_app_l. lia.
  - intros v Hv. exists v. rewrite last_lookup in Hv.
    assert (Hpos : (0 < length ts)%nat).
    { destruct ts; [discriminate Hv|cbn; lia]. }
    rewrite lookup_app_l by lia.
    replace (length ts - 1)%nat with (pred (length ts)) by lia. now split.
Qed.

Lemma grows_extend (front : list Transcription) (u : Transcription) (s : jsstring) :
  grows (front ++ [u]) (front ++ [mkTranscription (author u) (text u ++ s)]).
Proof.
  split; [rewrite !length_app; cbn; lia|]. split.
  - intros i Hi. rewrite length_app in Hi. cbn in Hi.
    rewrite !lookup_app_l by lia. reflexivity.
  - intros v Hv. rewrite last_snoc in Hv. injection Hv as <-.
    eexists. rewrite length_app. cbn [length].
    replace (length front + 1 - 1)%nat with (length front + 0)%nat by lia.
    rewrite lookup_app_r by lia.
    replace (length front + 0 - length front)%nat with 0%nat by lia.
    split; [reflexivity|]. split; [reflexivity|]. now apply prefix_app_r.
Qed.

Lemma assemble_grows v fragment : trackedView v → grows v.2 (assemble v fragment).2.
Proof.
  destruct v as [lastAuthor ts], fragment as [who s]. intros Htr.
  unfold assemble. cbn [fst snd]. destruct (decide (lastAuthor = Some who)) as [->|Hne].
  - destruct (Htr who eq_refl) as (front & u & Hts & Hu). cbn [fst snd] in *.
    rewrite Hts, TranscriptSpec.appendToLast_snoc. apply grows_extend.
  - apply grows_snoc.
Qed.

Lemma foldl_viewStep_grows v evs : trackedView v → grows v.2 (foldl viewStep v evs).2.
Proof.
  revert v. induction evs as [|ev evs IH]; intros v Htr; [apply grows_refl|].
  cbn [foldl]. apply grows_trans with (viewStep v ev).2;
    [|apply IH; now apply viewStep_tracked].
  destruct ev as [now message|source|]; [|apply grows_refl..]. cbn [viewStep snd].
  clear IH. revert v Htr. induction (fragmentsOf message) as [|f fs IHf]; intros v Htr;
    [apply grows_refl|].
  cbn [foldl]. apply grows_trans with (assemble v f).2; [now apply assemble_grows|].
  apply IHf. now apply assemble_tracked.
Qed.

Section Mirror.
Variable decodeAudioData : jsstring → Error + AudioBuffer.

Lemma step_mirror (st : State) (ev : Event) :
  tracked st → transcriptions st = transcriptionsRef st →
  transcriptions (step decodeAudioData st ev).1
  = transcriptionsRef (step decodeAudioData st ev).1.
Proof.
  intros Htr Hsame. destruct ev as [now message|source|]; [|exact Hsame..].
  cbn [ConversationalAI.step].
  destruct (onmessage_view decodeAudioData now message st Htr) as [Hview Hshown].
  apply (f_equal snd) in Hview. cbn [view snd] in Hview.
  rewrite Hshown, Hview. cbn [viewStep snd]. unfold fragmentsOf.
  destruct (truthy_opt (inputTranscription message)),
           (truthy_opt (outputTranscription message)); cbn; congruence.
Qed.

Lemma run_mirror (st : State) (evs : list Event) :
  tracked st → transcriptions st = transcriptionsRef st →
  transcriptions (run decodeAudioData st evs).1
  = transcriptionsRef (run decodeAudioData st evs).1.
Proof.
  revert st. induction evs as [|ev evs IH]; intros st Htr Hsame; [exact Hsame|].
  rewrite SequencerSpec.run_cons. apply IH.
  - apply (step_view decodeAudioData st ev Htr).
  - now apply step_mirror.
Qed.

End Mirror.

Lemma startConversation_tracked (st : State) : tracked (startConversation st).
Proof. intros who H. discriminate H. Qed.

Lemma midUtterance_tracked : tracked midUtterance.
Proof. intros who [= <-]. now exists [], (mkTranscription User (js "Hel")). Qed.

(** X10. Along every run, from a state whose tracked speaker is the author
    of the last utterance, the transcript only grows: no utterance is
    removed or reordered, every utterance but the last stays exactly as it
    is, and the last one keeps its author and can only get text appended. *)
Theorem transcript_only_grows (decodeAudioData : jsstring → Error + AudioBuffer)
    (st : State) (evs : list Event) (Htracked : tracked st) :
  grows (transcriptionsRef st) (transcriptionsRef (run decodeAudioData st evs).1).
Proof.
  destruct (run_view decodeAudioData st evs Htracked) as [Hview _].
  apply (f_equal snd) in Hview. cbn [view snd] in Hview. rewrite Hview.
  now apply (foldl_viewStep_grows (view st)).
Qed.

Lemma transcript_only_grows_witness :
  grows [mkTranscription User (js "Hel")]
        [mkTranscription User (js "Hello"); mkTranscription Model (js "Hi")].
Proof.
  exact (transcript_only_grows noAudio midUtterance
           [Message 0 (userFragment (js "lo")); Message 0 (modelFragment (js "Hi"))]
           midUtterance_tracked).
Defined.

(** X11. Along every run, from such a state, no text is lost, repeated or
    reordered: the texts of the utterances, read one after the other, are
    the texts that were there followed by the fragments of the run in the
    order in which they were handled. *)
Theorem transcript_keeps_all_text (decodeAudioData : jsstring → Error + AudioBuffer)
    (st : State) (evs : list Event) (Htracked : tracked st) :
  fullText (transcriptionsRef (run decodeAudioData st evs).1)
  = fullText (transcriptionsRef st) ++ concat (map snd (spoken evs)).
Proof.
  destruct (run_view decodeAudioData st evs Htracked) as [Hview _].
  apply (f_equal snd) in Hview. cbn [view snd] in Hview. rewrite Hview.
  now apply (foldl_viewStep_fullText (view st)).
Qed.

Lemma transcript_keeps_all_text_witness :
  fullText (transcriptionsRef
              (run noAudio midUtterance
                 [Message 0 (userFragment (js "lo")); Ended 3;
                  Message 0 (mkMessage (Some (js "?")) (Some (js "Hi")) true None true)]).1)
  = js "Hello?Hi".
Proof.
  rewrite (transcript_keeps_all_text noAudio midUtterance _ midUtterance_tracked).
  reflexivity.
Defined.

(** X12. In a session, whatever was there before it started and whatever
    happens in it, no utterance of the transcript is empty. *)
Theorem utterances_never_empty (decodeAudioData : jsstring → Error + AudioBuffer)
    (st : State) (evs : list Event) :
  worded (transcriptionsRef (run decodeAudioData (startConversation st) evs).1).
Proof.
  destruct (run_view decodeAudioData (startConversation st) evs
              (startConversation_tracked st)) as [Hview _].
  apply (f_equal snd) in Hview. cbn [view snd] in Hview. rewrite Hview.
  apply foldl_viewStep_worded.
  - apply startConversation_tracked.
  - constructor.
Qed.

(** X13. In a session in which no turn is completed, neighbouring
    utterances never have the same speaker: consecutive fragments of one
    speaker always end up in one utterance. *)
Theorem speakers_alternate_within_turn
    (decodeAudioData : jsstring → Error + AudioBuffer) (st : State)
    (evs : list Event) (Hturn : Forall sameTurn evs) :
  alternating (transcriptionsRef (run decodeAudioData (startConversation st) evs).1).
Proof.
  destruct (run_view decodeAudioData (startConversation st) evs
              (startConversation_tracked st)) as [Hview _].
  apply (f_equal snd) in Hview. cbn [view snd] in Hview. rewrite Hview.
  apply (foldl_viewStep_turnView (view (startConversation st)) evs Hturn).
  split; [apply startConversation_tracked|]. now split.
Qed.

Lemma speakers_alternate_within_turn_witness :
  alternating
    (transcriptionsRef
       (run noAudio (startConversation midUtterance)
          [Message 0 (userFragment (js "a")); Message 0 (userFragment (js "b"));
           Message 0 (mkMessage (Some (js "c")) (Some (js "d")) false None true);
           Message 0 (modelFragment (js "e")); Stop;
           Message 0 (userFragment (js "f"))]).1)
  ∧ length
      (transcriptionsRef
         (run noAudio (startConversation midUtterance)
            [Message 0 (userFragment (js "a")); Message 0 (userFragment (js "b"));
             Message 0 (mkMessage (Some (js "c")) (Some (js "d")) false None true);
             Message 0 (modelFragment (js "e")); Stop;
             Message 0 (userFragment (js "f"))]).1) = 3%nat.
Proof.
  split; [|reflexivity].
  apply (speakers_alternate_within_turn noAudio midUtterance).
  repeat constructor.
Defined.

(** X14. In a session the displayed transcript is always the assembled
    one: after every event the state cell holds the same utterances as the
    ref. *)
Theorem displayed_transcript_is_assembled
    (decodeAudioData : jsstring → Error + AudioBuffer) (st : State)
    (evs : list Event) :
  transcriptions (run decodeAudioData (startConversation st) evs).1
  = transcriptionsRef (run decodeAudioData (startConversation st) evs).1.
Proof.
  apply run_mirror; [apply startConversation_tracked|reflexivity].
Qed.

(** X15. In a session the message handler never fails on the transcript:
    if it ends by an exception, the message carried an audio payload and the
    exception is the one the decoding of that payload threw. *)
Theorem handler_throws_only_decoder_errors
    (decodeAudioData : jsstring → Error + AudioBuffer) (st : State)
    (evs : list Event) (now : Q) (message : LiveServerMessage) (e : Error)
    (Hthrown : (onmessage decodeAudioData now message
                  (run decodeAudioData (startConversation st) evs).1).2 = Some e) :
  truthy_opt (inlineData message) = true
  ∧ decodeAudioData (default [] (inlineData message)) = inl e.
Proof.
  apply (onmessage_thrown decodeAudioData now message
           (run decodeAudioData (startConversation st) evs).1); [|exact Hthrown].
  apply (run_view decodeAudioData (startConversation st) evs
           (startConversation_tracked st)).
Qed.

Lemma handler_throws_only_decoder_errors_witness :
  (onmessage sampleDecoder 0
     (mkMessage None (Some (js "Hello")) false (Some (js "C")) true)
     (run sampleDecoder (startConversation mounted)
        [Message 0 (userFragment (js "Hi"))]).1).2
  = Some (mkError (js "InvalidCharacterError"))
  ∧ sampleDecoder (js "C") = inl (mkError (js "InvalidCharacterError")).
Proof.
  split; [reflexivity|].
  apply (handler_throws_only_decoder_errors sampleDecoder mounted
           [Message 0 (userFragment (js "Hi"))] 0
           (mkMessage None (Some (js "Hello")) false (Some (js "C")) true)).
  reflexivity.
Defined.

End TranscriptRunSpec.


(* ===================================================================== *)
(** * The sequencer along a run *)
(* ===================================================================== *)

Module SequencerRunSpec.
Import Utils ConversationalAI Vocabulary Scenario Readings Samples.

Section Runs.
Local Open Scope Q_scope.

Lemma ruleSchedule_gapless (cursor : Q) (chunks : list (Q * AudioBuffer)) :
  Forall (λ c, c.1 <= cursor) chunks → gapless cursor (ruleSchedule cursor chunks).
Proof.
  revert cursor. induction chunks as [|[now chunk] rest IH]; intros cursor Hall;
    [exact I|].
  apply Forall_cons in Hall as [Hnow Hrest]. cbn [fst] in Hnow.
  cbn [ruleSchedule gapless]. split; [now apply Q.max_r|].
  apply IH. eapply Forall_impl; [exact Hrest|]. intros c Hc. cbn beta in *.
  apply Qle_trans with cursor; [exact Hc|].
  apply Qle_trans with (Qmax now cursor); [apply Q.le_max_r|].
  rewrite <- (Qplus_0_r (Qmax now cursor)) at 1.
  apply Qplus_le_r, SequencerSpec.duration_nonneg.
Qed.

Lemma createdSoFar_elem (st : State) (source : nat) :
  source ∈ createdSoFar st ↔ (source < created st)%nat.
Proof. unfold createdSoFar. rewrite elem_of_list_to_set, elem_of_seq. lia. Qed.

Lemma startedThenStopped_stops (known : gset nat) (sources : list nat)
    (effects : list Effect) :
  (∀ source, source ∈ sources → source ∈ known) →
  startedThenStopped known effects →
  startedThenStopped known (map SourceStop sources ++ effects).
Proof.
  induction sources as [|h l IH]; intros Hin Hrest; [exact Hrest|].
  cbn. split; [apply Hin; left|]. apply IH; [|exact Hrest].
  intros source Hs. apply Hin. now right.
Qed.

Section Session.
Variable decodeAudioData : jsstring → Error + AudioBuffer.
Local Abbreviation onmessage := (onmessage decodeAudioData).
Local Abbreviation step := (step decodeAudioData).
Local Abbreviation run := (run decodeAudioData).

(** The calls of one step respect the order of starting and stopping. *)
Lemma step_startedThenStopped (st : State) (ev : Event) (rest : list Effect) :
  allCreated st →
  startedThenStopped (createdSoFar (step st ev).1) rest →
  startedThenStopped (createdSoFar st) ((step st ev).2 ++ rest).
Proof.
  intros Hall Hrest.
  assert (Hstops : ∀ st' : State, created st' = created st →
            startedThenStopped (createdSoFar st') rest →
            startedThenStopped (createdSoFar st)
              (map SourceStop (elements (audioSourcesRef st)) ++ rest)).
  { intros st' Hc Hr. apply startedThenStopped_stops.
    - intros source Hin%elem_of_elements. apply createdSoFar_elem. now apply Hall.
    - unfold createdSoFar in *. now rewrite <- Hc. }
  destruct ev as [now message|source|]; cbn [ConversationalAI.step fst snd] in *.
  - destruct (SequencerSpec.onmessage_shape decodeAudioData now message st)
      as [(st0 & e & Hrun & Hseq)|(st4 & st5 & started & Hseq & Hsched & Hrun)];
      rewrite Hrun in *; cbn [fst snd] in *; injection Hseq as _ Hset Hcreated.
    { unfold createdSoFar in *. now rewrite <- Hcreated. }
    destruct Hsched as [Heq|(buffer & Heq)]; injection Heq as Hst5 Hstarted;
      rewrite Hst5, Hstarted in *; clear Hst5 Hstarted.
    + destruct (interrupted message); cbn [fst snd app interrupt] in *.
      * rewrite Hset. apply (Hstops st4); [congruence|].
        unfold createdSoFar in *. exact Hrest.
      * unfold createdSoFar in *. now rewrite <- Hcreated.
    + assert (Hnew : createdSoFar (schedule now buffer st4).1
                     = {[created st]} ∪ createdSoFar st).
      { apply set_eq. intros source.
        rewrite elem_of_union, elem_of_singleton, !createdSoFar_elem.
        cbn. rewrite Hcreated. lia. }
      assert (Hfresh : created st ∉ createdSoFar st).
      { rewrite createdSoFar_elem. lia. }
      destruct (interrupted message); cbn [fst snd app schedule interrupt] in *;
        rewrite Hcreated; (split; [exact Hfresh|]); rewrite <- Hnew.
      * apply startedThenStopped_stops; [|exact Hrest].
        intros source Hin%elem_of_elements. apply createdSoFar_elem. cbn.
        cbn in Hin. rewrite Hset, Hcreated in *.
        apply elem_of_union in Hin as [->%elem_of_singleton|Hin]; [lia|].
        specialize (Hall source Hin). lia.
      * exact Hrest.
  - exact Hrest.
  - now apply (Hstops (stopConversation st).1).
Qed.

(** X18. Along every run, from a state in which every active source has
    been created, the calls on source nodes are in order: no source is
    started twice, and a source is stopped only if it was created before the
    run or started earlier in it. *)
Theorem sources_started_once_and_stopped_after (st : State) (evs : list Event) :
  allCreated st → startedThenStopped (createdSoFar st) (run st evs).2.
Proof.
  revert st. induction evs as [|ev evs IH]; intros st Hall; [exact I|].
  rewrite SequencerSpec.run_effects_cons. apply step_startedThenStopped; [exact Hall|].
  apply IH. now apply SequencerSpec.step_allCreated.
Qed.

(** X16. A chunk that fails to decode is dropped without touching playback:
    the handler ends by the decoder's exception with no call made on any
    source and the cursor, the active set and the count of created sources
    as they were, even when the same message is flagged as interrupted. *)
Theorem failed_decode_leaves_sequencer (now : Q) (message : LiveServerMessage)
    (st : State) (e : Error) :
  tracked st → outputAudioContextRef st = true →
  truthy_opt (inlineData message) = true →
  decodeAudioData (default [] (inlineData message)) = inl e →
  (onmessage now message st).2 = Some e
  ∧ (onmessage now message st).1.2 = []
  ∧ sequencer (onmessage now message st).1.1 = sequencer st.
Proof.
  intros Htr Hctx Hpayload Hfail. unfold ConversationalAI.onmessage.
  destruct (TranscriptRunSpec.onTranscription_view User (inputTranscription message)
              st Htr) as (st1 & -> & Hv1 & _ & Hs1 & Hx1).
  assert (Htr1 : tracked st1).
  { apply TranscriptRunSpec.tracked_view. rewrite Hv1.
    destruct (truthy_opt (inputTranscription message)); [|exact Htr].
    now apply TranscriptRunSpec.assemble_tracked. }
  destruct (TranscriptRunSpec.onTranscription_view Model (outputTranscription message)
              st1 Htr1) as (st2 & -> & _ & _ & Hs2 & Hx2).
  match goal with
  | |- context [if turnComplete message then setLastAuthorRef None ?s else ?s] =>
      set (st3 := s)
  end.
  set (st4 := if turnComplete message then setLastAuthorRef None st3 else st3).
  assert (H4 : outputAudioContextRef st4 = true ∧ sequencer st4 = sequencer st).
  { subst st4 st3. unfold sequencer in *.
    destruct (turnComplete message),
             (truthy_opt (inputTranscription message)
              || truthy_opt (outputTranscription message));
      cbn; split; congruence. }
  destruct H4 as [Hx4 Hs4]. rewrite Hpayload, Hx4, Hfail. cbn. now repeat split.
Qed.

End Session.

End Runs.

Lemma failed_decode_leaves_sequencer_witness :
  let playing := (run sampleDecoder started [Message 0 (audioChunk (js "A"))]).1 in
  audioSourcesRef
    (onmessage sampleDecoder 0 (mkMessage None None false (Some (js "C")) true)
       playing).1.1 = {[0%nat]}
  ∧ (onmessage sampleDecoder 0 (mkMessage None None false (Some (js "C")) true)
       playing).1.2 = [].
Proof.
  intros playing.
  destruct (failed_decode_leaves_sequencer sampleDecoder 0
              (mkMessage None None false (Some (js "C")) true) playing
              (mkError (js "InvalidCharacterError")))
    as (_ & Heffects & Hseq); try reflexivity.
  - intros who H. discriminate H.
  - split; [|exact Heffects].
    apply (f_equal (λ cells : Q * gset nat * nat, cells.1.2)) in Hseq.
    cbn [sequencer fst snd] in Hseq. rewrite Hseq. vm_compute. reflexivity.
Defined.

(** X17. Chunks that all arrive no later than the cursor play back to back:
    the first starts at the cursor and each of the others starts exactly
    when the one before it ends. *)
Theorem burst_plays_back_to_back
    (decodeAudioData : jsstring → Error + AudioBuffer) (st : State)
    (chunks : list (Q * jsstring * AudioBuffer))
    (Hcontext : outputAudioContextRef st = true)
    (Hdecodes : Forall (decodes decodeAudioData) chunks)
    (Hearly : Forall (λ c, (c.1.1 <= nextStartTimeRef st)%Q) chunks) :
  gapless (nextStartTimeRef st)
    (starts (run decodeAudioData st (map arrives chunks)).2).
Proof.
  destruct (SequencerSpec.run_chunks decodeAudioData st chunks Hcontext Hdecodes)
    as [-> _].
  apply ruleSchedule_gapless. apply Forall_fmap.
  eapply Forall_impl; [exact Hearly|]. now intros [[now payload] buffer].
Qed.

Lemma burst_plays_back_to_back_witness :
  gapless 0
    (starts (run sampleDecoder started
               (map arrives [(0%Q, js "A", oneMs); (0%Q, js "B", halfMs);
                             (0%Q, js "A", oneMs)])).2).
Proof.
  apply (burst_plays_back_to_back sampleDecoder started
           [(0%Q, js "A", oneMs); (0%Q, js "B", halfMs); (0%Q, js "A", oneMs)]).
  - reflexivity.
  - repeat constructor; discriminate.
  - repeat constructor; discriminate.
Defined.

Lemma sources_started_once_and_stopped_after_witness :
  startedThenStopped ∅
    (run sampleDecoder started
       [Message 0 (audioChunk (js "A")); Message 0 (audioChunk (js "B")); Ended 0;
        Message 0 (mkMessage None None false (Some (js "A")) true); Stop]).2.
Proof.
  apply (sources_started_once_and_stopped_after sampleDecoder started).
  intros source Hin. now apply not_elem_of_empty in Hin.
Defined.

End SequencerRunSpec.


(* ===================================================================== *)
(** * The transcript file *)
(* ===================================================================== *)

Module TranscriptFileSpec.
Import ConversationalAI TranscriptFile.

Lemma join_app (sep : jsstring) (parts parts' : list jsstring) :
  parts ≠ [] → parts' ≠ [] →
  join sep (parts ++ parts') = join sep parts ++ sep ++ join sep parts'.
Proof.
  intros Hne Hne'. induction parts as [|part [|part' rest] IH]; [contradiction| |].
  - destruct parts' as [|q rest']; [contradiction|]. reflexivity.
  - change (join sep ((part :: part' :: rest) ++ parts'))
      with (part ++ sep ++ join sep ((part' :: rest) ++ parts')).
    rewrite IH by discriminate.
    change (join sep (part :: part' :: rest))
      with (part ++ sep ++ join sep (part' :: rest)).
    now rewrite <- !app_assoc.
Qed.

(** X20. The downloaded transcript holds every utterance once, in order,
    each as its speaker label, a colon, a space and its text, with one blank
    line between two utterances and none at either end: the file of two
    transcripts put together is the two files with a blank line between
    them, the file of one utterance is that one line, and the file of the
    empty transcript is empty. *)
Theorem transcript_file_composes (ts ts' : list Transcription) (u : Transcription) :
  formattedTranscript [] = []
  ∧ formattedTranscript [u] = authorLabel (author u) ++ js ": " ++ text u
  ∧ (ts ≠ [] → ts' ≠ [] →
     formattedTranscript (ts ++ ts')
     = formattedTranscript ts ++ [10; 10]%N ++ formattedTranscript ts').
Proof.
  split; [reflexivity|]. split; [reflexivity|].
  intros Hne Hne'. unfold formattedTranscript. rewrite map_app.
  apply join_app; now destruct ts, ts'.
Qed.

End TranscriptFileSpec.
